(** * Shumway [flash.display.DisplayObject]: invalid bits and lazy caches

    A shallow embedding of [src/flash.ts/display/DisplayObject.ts]: the
    flag word of a display object, the propagation of invalid bits along
    the display list, the ancestor searches, the lazily evaluated
    concatenated matrix / colour transform / content bounds, and the
    property setters [x], [y], [mask] and [visible].

    Display objects are JavaScript objects that reference each other
    ([_parent], [_children], [_mask], [_maskedObject], [_stage]) and are
    mutated in place, so the embedding keeps them in a store indexed by
    object identity and every method takes and returns the store.  Loops
    that follow [_parent] links are bounded by a [fuel] argument; a result
    of [None] means the bound was reached before the loop ended. *)

From Stdlib Require Import ZArith List Bool String Lia.
Import ListNotations.

Local Open Scope Z_scope.

(** ** JavaScript's 32-bit operators

    [_flags] is a JavaScript number.  The operators [|], [&] and [~]
    convert their operands with ToInt32 and yield a signed 32-bit
    integer. *)

Definition ToInt32 (z : Z) : Z := (z + 2 ^ 31) mod 2 ^ 32 - 2 ^ 31.

Definition is_int32 (z : Z) : Prop := - 2 ^ 31 <= z < 2 ^ 31.

Definition js_or (x y : Z) : Z := Z.lor (ToInt32 x) (ToInt32 y).
Definition js_and (x y : Z) : Z := Z.land (ToInt32 x) (ToInt32 y).
Definition js_not (x : Z) : Z := Z.lnot (ToInt32 x).

(** A flag mask: a non-negative value below the sign bit, as every
    combination of [DisplayObjectFlags] members is. *)
Definition is_mask (f : Z) : Prop := 0 <= f < 2 ^ 31.

(** [export enum Direction] *)
Module Direction.
Definition Upward : Z := 1.
Definition Downward : Z := 2.
End Direction.

(** [export enum DisplayObjectFlags] *)
Inductive DisplayObjectFlags : Set :=
| None_
| Visible
| InvalidBounds
| InvalidMatrix
| InvalidConcatenatedMatrix
| InvalidConcatenatedColorTransform
| InvalidPaint
| Constructed
| Destroyed
| OwnedByTimeline
| AnimatedByTimeline
| Invalid
| CacheAsBitmap.

Definition bits (f : DisplayObjectFlags) : Z :=
  match f with
  | None_ => 0x0000
  | Visible => 0x0001
  | InvalidBounds => 0x0004
  | InvalidMatrix => 0x0008
  | InvalidConcatenatedMatrix => 0x0010
  | InvalidConcatenatedColorTransform => 0x0020
  | InvalidPaint => 0x0040
  | Constructed => 0x0080
  | Destroyed => 0x0100
  | OwnedByTimeline => 0x0200
  | AnimatedByTimeline => 0x0400
  | Invalid => 0x0800
  | CacheAsBitmap => 0x1000
  end.

(** The flag word after [this._flags |= flags]. *)
Definition flags_or (word flags : Z) : Z := js_or word flags.

(** The flag word after [this._flags &= ~flags]. *)
Definition flags_andnot (word flags : Z) : Z := js_and word (js_not flags).

(** [(this._flags & flags) === flags] *)
Definition flags_has (word flags : Z) : bool := js_and word flags =? flags.

(** [!!(this._flags & flags)] *)
Definition flags_hasAny (word flags : Z) : bool := negb (js_and word flags =? 0).


(** ** The geometry classes

    [flash.geom.Matrix], [ColorTransform], [Rectangle] and
    [flash.display.Graphics] live in other files.  [DisplayObject.ts] reads
    and writes the fields of a matrix and of a rectangle and otherwise only
    calls methods, so the fields are records here and the methods (and
    JavaScript's floating-point numbers themselves) are operations of a
    class that the development is parametric in. *)

Class Numbers := {
  number : Type;
  (** [x === y] on two numbers *)
  number_strict_eq : number -> number -> bool;
  (** [(value * 20) | 0] *)
  twips_of : number -> number
}.

Record Matrix `{Numbers} := mkMatrix {
  a : number; b : number; c : number; d : number; tx : number; ty : number
}.

Record Rectangle `{Numbers} := mkRectangle {
  x : number; y : number; width : number; height : number
}.

Class Geometry `{Numbers} := {
  (** [new Matrix()] *)
  Matrix_new : Matrix;
  (** the value of [m] after [m.concat(other)] *)
  Matrix_concat : Matrix -> Matrix -> Matrix;
  (** the value of [m] after [m.invert()] *)
  Matrix_invert : Matrix -> Matrix;
  (** the value of [rect] after [m.transformRectAABB(rect)] *)
  Matrix_transformRectAABB : Matrix -> Rectangle -> Rectangle;
  ColorTransform : Type;
  ColorTransform_new : ColorTransform;
  ColorTransform_concat : ColorTransform -> ColorTransform -> ColorTransform;
  (** the value of [rect] after [rect.setEmpty()] *)
  Rectangle_setEmpty : Rectangle -> Rectangle;
  (** the value of [rect] after [rect.unionWith(other)] *)
  Rectangle_unionWith : Rectangle -> Rectangle -> Rectangle;
  Rectangle_isEmpty : Rectangle -> bool;
  (** the value of [rect] after [rect.toPixels()] *)
  Rectangle_toPixels : Rectangle -> Rectangle;
  Graphics : Type;
  (** [graphics._getContentBounds(includeStrokes)] *)
  Graphics_getContentBounds : Graphics -> bool -> Rectangle
}.

(** ** Exceptions *)

Inductive Error : Set :=
| AssertionError (message : string)
| ReferenceError (identifier : string)
| TypeError (message : string).

Inductive Completion (A : Type) : Type :=
| Normal (value : A)
| Throw (error : Error).

Arguments Normal {A} value.
Arguments Throw {A} error.

(** Modelled from the spec: [Shumway.Debug.assert] is imported from a file
    that is not part of the sources; the path extraction "fails fast with a
    defensive check", so a false condition throws. *)
Definition assert (condition : bool) (message : string) : Completion unit :=
  if condition then Normal tt else Throw (AssertionError message).

(** ** Display objects and the store *)

(** Object identity. *)
Definition ref : Set := nat.

(** A reference-typed field or variable: an object or [null]. *)
Definition strict_eq (p q : option ref) : bool :=
  match p, q with
  | Some r, Some s => Nat.eqb r s
  | None, None => true
  | _, _ => false
  end.

(** A [var] that has been hoisted but not yet assigned holds [undefined],
    which is strictly equal neither to [null] nor to any object. *)
Inductive Var : Set :=
| undefined
| assigned (value : option ref).

Definition var_strict_eq (v : Var) (q : option ref) : bool :=
  match v with
  | undefined => false
  | assigned p => strict_eq p q
  end.

(** The classes that the [instanceof] tests of this file tell apart.
    [Sprite] extends [DisplayObjectContainer]; [Shape] does not. *)
Inductive Class : Set :=
| DisplayObjectClass
| ShapeClass
| DisplayObjectContainerClass
| SpriteClass.

Definition instanceof_Shape (k : Class) : bool :=
  match k with ShapeClass => true | _ => false end.

Definition instanceof_Sprite (k : Class) : bool :=
  match k with SpriteClass => true | _ => false end.

Definition instanceof_DisplayObjectContainer (k : Class) : bool :=
  match k with DisplayObjectContainerClass | SpriteClass => true | _ => false end.

Section DisplayObject.

Context `{Geom : Geometry}.

(** The fields of a display object that the methods below use.  A field
    of an object type is [None] when it holds [null] (or was never
    assigned: the initializer leaves [_rect] and
    [_concatenatedColorTransform] unset and sets [_bounds] to [null]).
    [_matrix], [_concatenatedMatrix] and [_colorTransform] are created by
    the initializer, each node owning its own objects, and are only ever
    changed in place. *)
Record DisplayObject := mkDisplayObject {
  class : Class;
  _flags : Z;
  _stage : option ref;
  _parent : option ref;
  _mask : option ref;
  _maskedObject : option ref;
  _children : list ref;
  _matrix : Matrix;
  _concatenatedMatrix : Matrix;
  _colorTransform : ColorTransform;
  _concatenatedColorTransform : option ColorTransform;
  _rect : option Rectangle;
  _bounds : option Rectangle;
  _graphics : option Graphics
}.

Definition with_flags (v : Z) (o : DisplayObject) : DisplayObject :=
  mkDisplayObject (class o) v (_stage o) (_parent o) (_mask o)
    (_maskedObject o) (_children o) (_matrix o) (_concatenatedMatrix o)
    (_colorTransform o) (_concatenatedColorTransform o) (_rect o) (_bounds o)
    (_graphics o).

Definition with_mask (v : option ref) (o : DisplayObject) : DisplayObject :=
  mkDisplayObject (class o) (_flags o) (_stage o) (_parent o) v
    (_maskedObject o) (_children o) (_matrix o) (_concatenatedMatrix o)
    (_colorTransform o) (_concatenatedColorTransform o) (_rect o) (_bounds o)
    (_graphics o).

Definition with_maskedObject (v : option ref) (o : DisplayObject)
  : DisplayObject :=
  mkDisplayObject (class o) (_flags o) (_stage o) (_parent o) (_mask o)
    v (_children o) (_matrix o) (_concatenatedMatrix o)
    (_colorTransform o) (_concatenatedColorTransform o) (_rect o) (_bounds o)
    (_graphics o).

Definition with_matrix (v : Matrix) (o : DisplayObject) : DisplayObject :=
  mkDisplayObject (class o) (_flags o) (_stage o) (_parent o) (_mask o)
    (_maskedObject o) (_children o) v (_concatenatedMatrix o)
    (_colorTransform o) (_concatenatedColorTransform o) (_rect o) (_bounds o)
    (_graphics o).

Definition with_concatenatedMatrix (v : Matrix) (o : DisplayObject)
  : DisplayObject :=
  mkDisplayObject (class o) (_flags o) (_stage o) (_parent o) (_mask o)
    (_maskedObject o) (_children o) (_matrix o) v
    (_colorTransform o) (_concatenatedColorTransform o) (_rect o) (_bounds o)
    (_graphics o).


Definition with_rect (v : option Rectangle) (o : DisplayObject)
  : DisplayObject :=
  mkDisplayObject (class o) (_flags o) (_stage o) (_parent o) (_mask o)
    (_maskedObject o) (_children o) (_matrix o) (_concatenatedMatrix o)
    (_colorTransform o) (_concatenatedColorTransform o) v (_bounds o)
    (_graphics o).

Definition with_bounds (v : option Rectangle) (o : DisplayObject)
  : DisplayObject :=
  mkDisplayObject (class o) (_flags o) (_stage o) (_parent o) (_mask o)
    (_maskedObject o) (_children o) (_matrix o) (_concatenatedMatrix o)
    (_colorTransform o) (_concatenatedColorTransform o) (_rect o) v
    (_graphics o).

(** The objects, by identity. *)
Definition Store : Type := ref -> DisplayObject.

(** In-place mutation of one object. *)
Definition update (objs : Store) (r : ref)
  (f : DisplayObject -> DisplayObject) : Store :=
  fun r' => if Nat.eqb r' r then f (objs r') else objs r'.

(** The objects together with the static [DisplayObject._path], the array
    that [_getAncestors] reuses for every result. *)
Record World := mkWorld {
  objects : Store;
  _path : list ref
}.

(** ** Flags (source lines 268-290) *)

(** [_setFlags(flags)]: [this._flags |= flags]. *)
Definition _setFlags (objs : Store) (this : ref) (flags : Z) : Store :=
  update objs this (fun o => with_flags (flags_or (_flags o) flags) o).

(** [_removeFlags(flags)]: [this._flags &= ~flags]. *)
Definition _removeFlags (objs : Store) (this : ref) (flags : Z) : Store :=
  update objs this (fun o => with_flags (flags_andnot (_flags o) flags) o).

(** [_toggleFlags(flags, on)] *)
Definition _toggleFlags (objs : Store) (this : ref) (flags : Z) (on : bool)
  : Store :=
  if on then _setFlags objs this flags else _removeFlags objs this flags.

(** [_hasFlags(flags)]: [(this._flags & flags) === flags]. *)
Definition _hasFlags (objs : Store) (this : ref) (flags : Z) : bool :=
  flags_has (_flags (objs this)) flags.

(** [_hasAnyFlags(flags)]: [!!(this._flags & flags)]. *)
Definition _hasAnyFlags (objs : Store) (this : ref) (flags : Z) : bool :=
  flags_hasAny (_flags (objs this)) flags.

(** ** Propagation *)

(** [direction & Direction.X] as a condition.  The argument is [None] when
    the caller passes no direction: the parameter is then [undefined],
    which ToInt32 turns into 0. *)
Definition direction_has (direction : option Z) (which : Z) : bool :=
  negb (js_and (match direction with Some z => z | None => 0 end) which =? 0).

(** [var node = this._parent; while (node) { node._setFlags(flags); node = node._parent; }] *)
Fixpoint setFlags_upward (fuel : nat) (objs : Store) (node : option ref)
  (flags : Z) : option Store :=
  match node with
  | None => Some objs
  | Some n =>
      match fuel with
      | O => None
      | S fuel' =>
          let objs := _setFlags objs n flags in
          setFlags_upward fuel' objs (_parent (objs n)) flags
      end
  end.

(** [for (var i = 0; i < children.length; i++) ...] with the loop body
    [visit]. *)
Fixpoint for_children (visit : Store -> ref -> option Store)
  (children : list ref) (objs : Store) : option Store :=
  match children with
  | [] => Some objs
  | child :: rest =>
      match visit objs child with
      | None => None
      | Some objs => for_children visit rest objs
      end
  end.

(** [_propagateFlags(flags, direction)], source lines 295-319.  The call
    on a child is [children[i]._propagateFlags(flags)]: it passes [flags]
    alone. *)
Fixpoint _propagateFlags (fuel : nat) (objs : Store) (this : ref) (flags : Z)
  (direction : option Z) : option Store :=
  match fuel with
  | O => None
  | S fuel' =>
      if _hasFlags objs this flags then Some objs
      else
        let objs := _setFlags objs this flags in
        match
          (if direction_has direction Direction.Upward
           then setFlags_upward fuel' objs (_parent (objs this)) flags
           else Some objs)
        with
        | None => None
        | Some objs =>
            if direction_has direction Direction.Downward then
              if instanceof_DisplayObjectContainer (class (objs this)) then
                for_children
                  (fun objs child =>
                     if negb (_hasFlags objs child flags)
                     then _propagateFlags fuel' objs child flags None
                     else Some objs)
                  (_children (objs this)) objs
              else Some objs
            else Some objs
        end
  end.

(** ** Ancestor searches *)

(** The loop of [_findFurthestAncestor], source lines 389-403. *)
Fixpoint findFurthestAncestor_loop (fuel : nat) (objs : Store)
  (node last oldest : option ref) (flags : Z) (on : bool)
  : option (option ref) :=
  match node with
  | None => Some oldest
  | Some n =>
      let oldest :=
        if Bool.eqb (_hasFlags objs n flags) on then Some n else oldest in
      if strict_eq (Some n) last then Some oldest
      else
        match fuel with
        | O => None
        | S fuel' =>
            findFurthestAncestor_loop fuel' objs (_parent (objs n)) last
              oldest flags on
        end
  end.

Definition _findFurthestAncestor (fuel : nat) (objs : Store) (this : ref)
  (flags : Z) (on : bool) : option (option ref) :=
  findFurthestAncestor_loop fuel objs (Some this) (_stage (objs this)) None
    flags on.

(** The loop of [_findClosestAncestor], source lines 408-421. *)
Fixpoint findClosestAncestor_loop (fuel : nat) (objs : Store)
  (node last : option ref) (flags : Z) (on : bool) : option (option ref) :=
  match node with
  | None => Some None
  | Some n =>
      if Bool.eqb (_hasFlags objs n flags) on then Some (Some n)
      else if strict_eq (Some n) last then Some None
      else
        match fuel with
        | O => None
        | S fuel' =>
            findClosestAncestor_loop fuel' objs (_parent (objs n)) last
              flags on
        end
  end.

Definition _findClosestAncestor (fuel : nat) (objs : Store) (this : ref)
  (flags : Z) (on : bool) : option (option ref) :=
  findClosestAncestor_loop fuel objs (Some this) (_stage (objs this)) flags on.

(** The loop of [_isAncestor], source lines 426-435. *)
Fixpoint isAncestor_loop (fuel : nat) (objs : Store) (node : option ref)
  (ancestor : option ref) : option bool :=
  match node with
  | None => Some false
  | Some n =>
      if strict_eq (Some n) ancestor then Some true
      else
        match fuel with
        | O => None
        | S fuel' => isAncestor_loop fuel' objs (_parent (objs n)) ancestor
        end
  end.

Definition _isAncestor (fuel : nat) (objs : Store) (this : ref)
  (ancestor : option ref) : option bool :=
  isAncestor_loop fuel objs (Some this) ancestor.

(** [while (node && node === last) { path.push(node); node = node._parent; }]
    The result is the array and the node the loop stopped at. *)
Fixpoint getAncestors_loop (fuel : nat) (objs : Store) (node last : option ref)
  (path : list ref) : option (list ref * option ref) :=
  match node with
  | None => Some (path, None)
  | Some n =>
      if strict_eq (Some n) last then
        match fuel with
        | O => None
        | S fuel' =>
            getAncestors_loop fuel' objs (_parent (objs n)) last (path ++ [n])
        end
      else Some (path, Some n)
  end.

(** [DisplayObject._getAncestors(node, last)], source lines 445-454.  The
    loop is that of the source, [node === last] included.  The static array is
    emptied and refilled whether or not the assertion holds. *)
Definition _getAncestors (fuel : nat) (w : World) (node last : option ref)
  : option (Completion (list ref) * World) :=
  match getAncestors_loop fuel (objects w) node last [] with
  | None => None
  | Some (path, node) =>
      let w := mkWorld (objects w) path in
      match assert (strict_eq node last) "Last ancestor is not an ancestor." with
      | Throw e => Some (Throw e, w)
      | Normal _ => Some (Normal path, w)
      end
  end.

(** ** Concatenated matrix *)

(** A reference to a [Matrix] object: one of the two matrices a display
    object owns, or an object that no display object holds.  Methods such
    as [concat] and [invert] change the object behind the reference. *)
Inductive MatrixRef : Type :=
| matrix_of (r : ref)
| concatenatedMatrix_of (r : ref)
| temporary (m : Matrix).

Definition Matrix_read (objs : Store) (m : MatrixRef) : Matrix :=
  match m with
  | matrix_of r => _matrix (objs r)
  | concatenatedMatrix_of r => _concatenatedMatrix (objs r)
  | temporary v => v
  end.

Definition Matrix_mutate (f : Matrix -> Matrix) (objs : Store) (m : MatrixRef)
  : Store * MatrixRef :=
  match m with
  | matrix_of r =>
      (update objs r (fun o => with_matrix (f (_matrix o)) o), m)
  | concatenatedMatrix_of r =>
      (update objs r
         (fun o => with_concatenatedMatrix (f (_concatenatedMatrix o)) o), m)
  | temporary v => (objs, temporary (f v))
  end.

Definition ICM : Z := bits InvalidConcatenatedMatrix.
Definition ICCT : Z := bits InvalidConcatenatedColorTransform.

(** The body of [for (var i = path.length - 1; i >= 0; i--)] in
    [_getConcatenatedMatrix], over the elements in the order visited. *)
Fixpoint concatenate_matrices (objs : Store) (m : MatrixRef)
  (visited : list ref) : Completion unit * Store :=
  match visited with
  | [] => (Normal tt, objs)
  | ancestor :: rest =>
      match assert (_hasFlags objs ancestor ICM) EmptyString with
      | Throw e => (Throw e, objs)
      | Normal _ =>
          let local := _matrix (objs ancestor) in
          let (objs, m) :=
            Matrix_mutate (fun v => Matrix_concat v local) objs m in
          let copied := Matrix_read objs m in
          let objs :=
            update objs ancestor (with_concatenatedMatrix copied) in
          let objs := _removeFlags objs ancestor ICM in
          concatenate_matrices objs m rest
      end
  end.

(** [_getConcatenatedMatrix()], source lines 460-478.  The method returns one of the receiver's
    own matrix objects.  [ancestor] is declared with [var] further down, so
    the first test reads it while it is still [undefined]. *)
Definition _getConcatenatedMatrix (fuel : nat) (w : World) (this : ref)
  : option (Completion MatrixRef * World) :=
  let ancestor := undefined in
  if var_strict_eq ancestor (_parent (objects w this)) then
    Some (Normal (matrix_of this), w)
  else if _hasFlags (objects w) this ICM then
    match _findClosestAncestor fuel (objects w) this ICM false with
    | None => None
    | Some ancestor =>
        match _getAncestors fuel w (Some this) ancestor with
        | None => None
        | Some (Throw e, w) => Some (Throw e, w)
        | Some (Normal path, w) =>
            let m :=
              match ancestor with
              | Some target => concatenatedMatrix_of target
              | None => temporary Matrix_new
              end in
            match concatenate_matrices (objects w) m (rev path) with
            | (Throw e, objs) => Some (Throw e, mkWorld objs (_path w))
            | (Normal _, objs) =>
                Some (Normal (concatenatedMatrix_of this),
                      mkWorld objs (_path w))
            end
        end
    end
  else Some (Normal (concatenatedMatrix_of this), w).

(** ** Concatenated colour transform *)




Definition not_an_object : Error :=
  TypeError "cannot read a property of null or undefined".



(** ** Invalidation *)

(** [_invalidateBounds()], source lines 526-528. *)
Definition _invalidateBounds (fuel : nat) (objs : Store) (this : ref)
  : option Store :=
  _propagateFlags fuel objs this (bits InvalidBounds) (Some Direction.Upward).

(** [_invalidatePaint()], source lines 582-584. *)
Definition _invalidatePaint (fuel : nat) (objs : Store) (this : ref)
  : option Store :=
  _propagateFlags fuel objs this (bits InvalidPaint) (Some Direction.Upward).

(** [_invalidatePosition()], source lines 589-596. *)
Definition _invalidatePosition (fuel : nat) (objs : Store) (this : ref)
  : option Store :=
  let objs := _removeFlags objs this (bits AnimatedByTimeline) in
  match _propagateFlags fuel objs this ICM (Some Direction.Downward) with
  | None => None
  | Some objs =>
      match _parent (objs this) with
      | Some parent => _invalidateBounds fuel objs parent
      | None => Some objs
      end
  end.

(** [_setColorTransform(colorTransform)], source lines 517-521. *)
Definition _setColorTransform (fuel : nat) (objs : Store) (this : ref)
  (colorTransform : ColorTransform) : option Store :=
  let objs :=
    update objs this
      (fun o =>
         mkDisplayObject (class o) (_flags o) (_stage o) (_parent o) (_mask o)
           (_maskedObject o) (_children o) (_matrix o) (_concatenatedMatrix o)
           colorTransform (_concatenatedColorTransform o) (_rect o)
           (_bounds o) (_graphics o)) in
  match _propagateFlags fuel objs this ICCT (Some Direction.Downward) with
  | None => None
  | Some objs => _invalidatePaint fuel objs this
  end.

(** ** Property setters *)

Definition Matrix_with_tx (v : number) (m : Matrix) : Matrix :=
  mkMatrix _ (a m) (b m) (c m) (d m) v (ty m).

Definition Matrix_with_ty (v : number) (m : Matrix) : Matrix :=
  mkMatrix _ (a m) (b m) (c m) (d m) (tx m) v.

(** [set x(value)], source lines 602-609. *)
Definition set_x (fuel : nat) (objs : Store) (this : ref) (value : number)
  : option Store :=
  let value := twips_of value in
  if number_strict_eq value (tx (_matrix (objs this))) then Some objs
  else
    let objs :=
      update objs this (fun o => with_matrix (Matrix_with_tx value (_matrix o)) o) in
    _invalidatePosition fuel objs this.

(** [set y(value)], source lines 615-622. *)
Definition set_y (fuel : nat) (objs : Store) (this : ref) (value : number)
  : option Store :=
  let value := twips_of value in
  if number_strict_eq value (ty (_matrix (objs this))) then Some objs
  else
    let objs :=
      update objs this (fun o => with_matrix (Matrix_with_ty value (_matrix o)) o) in
    _invalidatePosition fuel objs this.

(** [set mask(value)], source lines 628-642.  The setter calls itself on the object that
    [value] masked so far. *)
Fixpoint set_mask (fuel : nat) (objs : Store) (this : ref)
  (value : option ref) : option Store :=
  match fuel with
  | O => None
  | S fuel' =>
      if strict_eq (_mask (objs this)) value || strict_eq value (Some this)
      then Some objs
      else
        match
          (match value with
           | Some v =>
               match _maskedObject (objs v) with
               | Some masked => set_mask fuel' objs masked None
               | None => Some objs
               end
           | None => Some objs
           end)
        with
        | None => None
        | Some objs =>
            let objs := update objs this (with_mask value) in
            let objs :=
              match value with
              | Some v => update objs v (with_maskedObject (Some this))
              | None => objs
              end in
            _invalidatePaint fuel' objs this
        end
  end.

(** [get visible()] *)
Definition get_visible (objs : Store) (this : ref) : bool :=
  _hasFlags objs this (bits Visible).

(** [set visible(value)], source lines 685-693, after [value = !!value]. *)
Definition set_visible (objs : Store) (this : ref) (value : bool) : Store :=
  if Bool.eqb value (_hasFlags objs this (bits Visible)) then objs
  else
    let objs := _setFlags objs this (bits Visible) in
    _removeFlags objs this (bits AnimatedByTimeline).

(** ** Content bounds *)

(** [includeStrokes ? this._bounds : this._rect] *)
Definition rectangle_of (includeStrokes : bool) (o : DisplayObject)
  : option Rectangle :=
  if includeStrokes then _bounds o else _rect o.

Definition with_rectangle (includeStrokes : bool) (v : Rectangle)
  (o : DisplayObject) : DisplayObject :=
  if includeStrokes then with_bounds (Some v) o else with_rect (Some v) o.

(** The identifier [children] in [_getContentBounds].  The method declares
    [container] and never [children]; the [var children] of
    [_propagateFlags] is local to that method, and the file binds the name
    nowhere else, so evaluating it throws. *)
Definition children_of_getContentBounds : Completion (list ref) :=
  Throw (ReferenceError "children").

(** [child.getBounds(this)] and [child.getRect(this)].  Both methods stand
    inside the block comment that follows [set z], so the class has no
    such property and the call throws. *)
Definition getBounds (objs : Store) (child : ref)
  (targetCoordinateSpace : ref) : Completion Rectangle * Store :=
  (Throw (TypeError "child.getBounds is not a function"), objs).

Definition getRect (objs : Store) (child : ref)
  (targetCoordinateSpace : ref) : Completion Rectangle * Store :=
  (Throw (TypeError "child.getRect is not a function"), objs).

(** The loop over the children in [_getContentBounds]; [rectangle] is the
    receiver's rectangle object and is never [null] here. *)
Fixpoint union_children (includeStrokes : bool) (this : ref)
  (children : list ref) (objs : Store) : Completion unit * Store :=
  match children with
  | [] => (Normal tt, objs)
  | child :: rest =>
      match
        (if includeStrokes then getBounds objs child this
         else getRect objs child this)
      with
      | (Throw e, objs) => (Throw e, objs)
      | (Normal r, objs) =>
          match rectangle_of includeStrokes (objs this) with
          | None => (Throw not_an_object, objs)
          | Some rectangle =>
              let objs :=
                update objs this
                  (with_rectangle includeStrokes
                     (Rectangle_unionWith rectangle r)) in
              union_children includeStrokes this rest objs
          end
      end
  end.

(** [_getContentBounds(includeStrokes)], source lines 533-561.  The result is the receiver's
    rectangle object ([None] for [null]). *)
Definition _getContentBounds (objs : Store) (this : ref)
  (includeStrokes : bool) : Completion (option Rectangle) * Store :=
  if _hasFlags objs this (bits InvalidBounds) then
    match rectangle_of includeStrokes (objs this) with
    | None => (Throw not_an_object, objs)
    | Some rectangle =>
        let objs :=
          update objs this
            (with_rectangle includeStrokes (Rectangle_setEmpty rectangle)) in
        let graphics :=
          if instanceof_Shape (class (objs this)) then _graphics (objs this)
          else if instanceof_Sprite (class (objs this))
               then _graphics (objs this)
               else None in
        let objs :=
          match graphics with
          | Some g =>
              update objs this
                (fun o =>
                   match rectangle_of includeStrokes o with
                   | Some rectangle =>
                       with_rectangle includeStrokes
                         (Rectangle_unionWith rectangle
                            (Graphics_getContentBounds g includeStrokes)) o
                   | None => o
                   end)
          | None => objs
          end in
        match
          (if instanceof_DisplayObjectContainer (class (objs this)) then
             match children_of_getContentBounds with
             | Throw e => (Throw e, objs)
             | Normal children =>
                 union_children includeStrokes this children objs
             end
           else (Normal tt, objs))
        with
        | (Throw e, objs) => (Throw e, objs)
        | (Normal _, objs) =>
            let objs := _removeFlags objs this (bits InvalidBounds) in
            (Normal (rectangle_of includeStrokes (objs this)), objs)
        end
    end
  else (Normal (rectangle_of includeStrokes (objs this)), objs).

(** [_getTransformedBounds(targetCoordinateSpace, includeStroke, toPixels)],
    source lines 563-577.
    [bounds] is a clone, so changing it changes no display object; [t] is
    the matrix object that [targetCoordinateSpace._getConcatenatedMatrix()]
    returned, and [invert] and [concat] change that object. *)
Definition _getTransformedBounds (fuel : nat) (w : World) (this : ref)
  (targetCoordinateSpace : option ref) (includeStroke toPixels : bool)
  : option (Completion Rectangle * World) :=
  match _getContentBounds (objects w) this includeStroke with
  | (Throw e, objs) => Some (Throw e, mkWorld objs (_path w))
  | (Normal None, objs) => Some (Throw not_an_object, mkWorld objs (_path w))
  | (Normal (Some bounds), objs) =>
      let w := mkWorld objs (_path w) in
      match targetCoordinateSpace with
      | None => Some (Normal bounds, w)
      | Some target =>
          if strict_eq (Some target) (Some this) || Rectangle_isEmpty bounds
          then Some (Normal bounds, w)
          else
            match _getConcatenatedMatrix fuel w target with
            | None => None
            | Some (Throw e, w) => Some (Throw e, w)
            | Some (Normal t, w) =>
                let (objs, t) := Matrix_mutate Matrix_invert (objects w) t in
                match _getConcatenatedMatrix fuel (mkWorld objs (_path w)) this with
                | None => None
                | Some (Throw e, w) => Some (Throw e, w)
                | Some (Normal m, w) =>
                    let other := Matrix_read (objects w) m in
                    let (objs, t) :=
                      Matrix_mutate (fun v => Matrix_concat v other)
                        (objects w) t in
                    let bounds :=
                      Matrix_transformRectAABB (Matrix_read objs t) bounds in
                    let bounds :=
                      if toPixels then Rectangle_toPixels bounds else bounds in
                    Some (Normal bounds, mkWorld objs (_path w))
                end
            end
      end
  end.

(** ** The specification's reading of the same operations

    These definitions follow the words of the specification, not the
    code; the theorems compare the two. *)

(** The chain of [_parent] links that starts at [node] ends within [n]
    steps. *)
Fixpoint ancestors_within (objs : Store) (node : option ref) (n : nat) : bool :=
  match node with
  | None => true
  | Some r =>
      match n with
      | O => false
      | S n' => ancestors_within objs (_parent (objs r)) n'
      end
  end.

(** "returns the ordered sequence of nodes from [node] up to but excluding
    [stopAncestor], in child-to-ancestor order" and "fails if
    [stopAncestor] is not actually an ancestor of [node]".  The outer
    option is the loop bound, the inner one the failure. *)
Fixpoint spec_pathTo (fuel : nat) (objs : Store) (node stopAncestor : option ref)
  : option (option (list ref)) :=
  if strict_eq node stopAncestor then Some (Some [])
  else
    match node with
    | None => Some None
    | Some n =>
        match fuel with
        | O => None
        | S fuel' =>
            match spec_pathTo fuel' objs (_parent (objs n)) stopAncestor with
            | Some (Some path) => Some (Some (n :: path))
            | other => other
            end
        end
    end.

(** "the matrix product of all ancestor local transforms and its own,
    evaluated root-to-node": the naive full recomputation from the root. *)
Fixpoint spec_concatenatedMatrix (fuel : nat) (objs : Store)
  (node : option ref) : option Matrix :=
  match node with
  | None => Some Matrix_new
  | Some n =>
      match fuel with
      | O => None
      | S fuel' =>
          match spec_concatenatedMatrix fuel' objs (_parent (objs n)) with
          | Some m => Some (Matrix_concat m (_matrix (objs n)))
          | None => None
          end
      end
  end.


(** [d] is a descendant of [n]: a child, or a descendant of a child. *)
Inductive descendant (objs : Store) (n : ref) : ref -> Prop :=
| descendant_child d : In d (_children (objs n)) -> descendant objs n d
| descendant_deeper c d :
    In c (_children (objs n)) -> descendant objs c d -> descendant objs n d.

(** Every mask link is answered by the back-reference: if [a] is masked by
    [m] then [m._maskedObject] is [a]. *)
Definition mask_links_consistent (objs : Store) : Prop :=
  forall a m, _mask (objs a) = Some m -> _maskedObject (objs m) = Some a.

(** "composes [inverse(targetSpace.concatenatedTransform) *
    node.concatenatedTransform] and maps the axis-aligned bounding box
    through it", with both concatenated transforms recomputed from the
    root. *)
Definition spec_transformedBounds (fuel : nat) (objs : Store)
  (node target : ref) (bounds : Rectangle) : option Rectangle :=
  match spec_concatenatedMatrix fuel objs (Some target),
        spec_concatenatedMatrix fuel objs (Some node) with
  | Some t, Some m =>
      Some (Matrix_transformRectAABB (Matrix_concat (Matrix_invert t) m) bounds)
  | _, _ => None
  end.

(** The [_mask] and [_maskedObject] fields that [this.mask = value]
    leaves behind, read off the setter: nothing changes when [value] is
    the current mask or the receiver itself; otherwise the object that
    [value] masked loses its mask, the receiver gets [value], and [value]
    points back to the receiver. *)
Definition mask_after (objs : Store) (this : ref) (value : option ref)
  (r : ref) : option ref :=
  if strict_eq (_mask (objs this)) value || strict_eq value (Some this)
  then _mask (objs r)
  else if Nat.eqb r this then value
  else
    match value with
    | Some v =>
        if strict_eq (_maskedObject (objs v)) (Some r) then None
        else _mask (objs r)
    | None => _mask (objs r)
    end.

Definition maskedObject_after (objs : Store) (this : ref)
  (value : option ref) (r : ref) : option ref :=
  if strict_eq (_mask (objs this)) value || strict_eq value (Some this)
  then _maskedObject (objs r)
  else
    match value with
    | Some v => if Nat.eqb r v then Some this else _maskedObject (objs r)
    | None => _maskedObject (objs r)
    end.

(** Two stores that differ in flag words only. *)
Definition flags_only (objs objs' : Store) : Prop :=
  forall r, with_flags 0 (objs' r) = with_flags 0 (objs r).

(** The error that the assertion of [_getAncestors] throws. *)
Definition not_an_ancestor : Error :=
  AssertionError "Last ancestor is not an ancestor.".

(** What the mask exclusivity property asks of [t1.mask = m] followed by
    [t2.mask = m]: both calls return, and afterwards [t2] is masked by
    [m], [t1] has no mask and [m] points back to [t2]. *)
Definition masks_only_second (fuel : nat) (objs : Store) (m t1 t2 : ref)
  : Prop :=
  exists objs1 objs2,
    set_mask fuel objs t1 (Some m) = Some objs1 /\
    set_mask fuel objs1 t2 (Some m) = Some objs2 /\
    _mask (objs2 t2) = Some m /\
    _mask (objs2 t1) = None /\
    _maskedObject (objs2 m) = Some t2.
End DisplayObject.

Arguments mkDisplayObject {H Geom}.
Arguments mkWorld {H Geom}.

(** ** An instance over the integers

    Used to run the methods on concrete scenes.  Coordinates are twips. *)

(** Modelled from the spec: JavaScript numbers are not part of the
    sources' text; the scenes below only hold integers, on which
    [(value * 20) | 0] is the 32-bit wrap of the product and [===] is
    equality. *)
#[export] Instance ZNumbers : Numbers := {|
  number := Z;
  number_strict_eq := Z.eqb;
  twips_of := fun value => ToInt32 (value * 20)
|}.

Definition ZMatrix : Type := @Matrix ZNumbers.
Definition ZRectangle : Type := @Rectangle ZNumbers.

Definition translation (dx dy : Z) : ZMatrix := mkMatrix ZNumbers 1 0 0 1 dx dy.

Definition rectangle (x0 y0 w h : Z) : ZRectangle := mkRectangle ZNumbers x0 y0 w h.

Definition ZMatrix_concat (m o : ZMatrix) : ZMatrix :=
  mkMatrix ZNumbers
    (a m * a o + b m * c o) (a m * b o + b m * d o)
    (c m * a o + d m * c o) (c m * b o + d m * d o)
    (tx m * a o + ty m * c o + tx o) (tx m * b o + ty m * d o + ty o).

(** Exact on matrices of determinant 1 or -1. *)
Definition ZMatrix_invert (m : ZMatrix) : ZMatrix :=
  let det := a m * d m - b m * c m in
  let a' := d m / det in
  let b' := - b m / det in
  let c' := - c m / det in
  let d' := a m / det in
  mkMatrix ZNumbers a' b' c' d'
    (- (a' * tx m + c' * ty m)) (- (b' * tx m + d' * ty m)).

Definition ZRectangle_isEmpty (r : ZRectangle) : bool :=
  (width r <=? 0) || (height r <=? 0).

Definition ZRectangle_unionWith (r o : ZRectangle) : ZRectangle :=
  if ZRectangle_isEmpty o then r
  else if ZRectangle_isEmpty r then o
  else
    let l := Z.min (x r) (x o) in
    let t := Z.min (y r) (y o) in
    rectangle l t
      (Z.max (x r + width r) (x o + width o) - l)
      (Z.max (y r + height r) (y o + height o) - t).

Definition ZMatrix_transformRectAABB (m : ZMatrix) (r : ZRectangle)
  : ZRectangle :=
  let px := fun u v => a m * u + c m * v + tx m in
  let py := fun u v => b m * u + d m * v + ty m in
  let x0 := x r in let x1 := x r + width r in
  let y0 := y r in let y1 := y r + height r in
  let l := Z.min (Z.min (px x0 y0) (px x1 y0)) (Z.min (px x0 y1) (px x1 y1)) in
  let h := Z.max (Z.max (px x0 y0) (px x1 y0)) (Z.max (px x0 y1) (px x1 y1)) in
  let t := Z.min (Z.min (py x0 y0) (py x1 y0)) (Z.min (py x0 y1) (py x1 y1)) in
  let u := Z.max (Z.max (py x0 y0) (py x1 y0)) (Z.max (py x0 y1) (py x1 y1)) in
  rectangle l t (h - l) (u - t).

(** Modelled from the spec: [flash.geom.Matrix], [flash.geom.Rectangle],
    [flash.geom.ColorTransform] and [flash.display.Graphics] are missing
    from the sources.  Matrices concatenate as affine maps, a rectangle is
    empty when it has no area, the union is the bounding box of two
    rectangles, a colour transform is a multiplier with an offset, and a
    graphics object answers with its two bounding boxes (with strokes,
    without). *)
#[export] Instance ZGeometry : @Geometry ZNumbers := {|
  Matrix_new := translation 0 0;
  Matrix_concat := ZMatrix_concat;
  Matrix_invert := ZMatrix_invert;
  Matrix_transformRectAABB := ZMatrix_transformRectAABB;
  ColorTransform := Z * Z;
  ColorTransform_new := (1, 0);
  ColorTransform_concat :=
    fun m o => (fst m * fst o, fst m * snd o + snd m);
  Rectangle_setEmpty := fun _ => rectangle 0 0 0 0;
  Rectangle_unionWith := ZRectangle_unionWith;
  Rectangle_isEmpty := ZRectangle_isEmpty;
  Rectangle_toPixels :=
    fun r => rectangle (x r / 20) (y r / 20) (width r / 20) (height r / 20);
  Graphics := (ZRectangle * ZRectangle)%type;
  Graphics_getContentBounds :=
    fun g includeStrokes => if includeStrokes then fst g else snd g
|}.

(** ** Scenes *)

Module Scene.

Definition ZObject : Type := @DisplayObject ZNumbers ZGeometry.
Definition ZStore : Type := @Store ZNumbers ZGeometry.
Definition ZWorld : Type := @World ZNumbers ZGeometry.

(** A display object as the initializer leaves it, but for the class,
    the tree links and the two rectangles. *)
Definition node (k : Class) (parent : option ref) (children : list ref)
  (bounds : option ZRectangle) : ZObject :=
  mkDisplayObject k (bits None_) None parent None None children
    (translation 0 0) (translation 0 0) (1, 0) None bounds bounds None.

Definition R : ref := 0%nat.
Definition A : ref := 1%nat.
Definition B : ref := 2%nat.

(** Root [R] with child [A] with child [B]; [B] is a shape whose bounds
    are (0, 0, 10, 10). *)
Definition tree : ZStore :=
  fun r =>
    match r with
    | 0%nat => node DisplayObjectContainerClass None [A] (Some (rectangle 0 0 0 0))
    | 1%nat => node SpriteClass (Some R) [B] (Some (rectangle 0 0 0 0))
    | 2%nat => node ShapeClass (Some A) [] (Some (rectangle 0 0 10 10))
    | _ => node DisplayObjectClass None [] None
    end.

(** The same tree after [A.x = 10] and [B.y = 5]. *)
Definition moved : option ZStore :=
  match set_x 5 tree A 10 with
  | Some objs => set_y 5 objs B 5
  | None => None
  end.

Definition moved_store : ZStore :=
  match moved with Some objs => objs | None => tree end.


(** The tree after [A.x = 10] and [A.y = 10], with [A] animated by the
    timeline again. *)
Definition diagonal : ZStore :=
  match set_x 5 tree A 10 with
  | Some objs =>
      match set_y 5 objs A 10 with
      | Some objs => _setFlags objs A (bits AnimatedByTimeline)
      | None => tree
      end
  | None => tree
  end.

(** The tree with [A] visible. *)
Definition shown : ZStore := _setFlags tree A (bits Visible).

Definition world (objs : ZStore) : ZWorld := mkWorld objs [].

(** What a method returned, without the store. *)
Definition outcome {T : Type} (r : option (Completion T * ZWorld))
  : option (Completion T) :=
  option_map fst r.

(** Three unrelated display objects: a mask [M] and two targets. *)
Definition M : ref := 0%nat.
Definition T1 : ref := 1%nat.
Definition T2 : ref := 2%nat.

Definition X : ref := 3%nat.

Definition loose : ZStore := fun _ => node DisplayObjectClass None [] None.

(** [loose] with [X] masked by [M]. *)
Definition in_use : ZStore :=
  update (update loose X (with_mask (Some M))) M (with_maskedObject (Some X)).

(** [loose] with [T1] masked by [X]. *)
Definition premasked : ZStore :=
  update (update loose T1 (with_mask (Some X))) X (with_maskedObject (Some T1)).

(** [loose] with a mask link that no back-reference answers: [T2._mask]
    is [M] while [M._maskedObject] is [null]. *)
Definition unanswered : ZStore := update loose T2 (with_mask (Some M)).

End Scene.

(** ** Ancestors and the remaining methods *)

Section Relations.

Context `{Geom : Geometry}.

(** [a] is the parent of [n], or the parent of its parent, and so on. *)
Inductive ancestor (objs : Store) : ref -> ref -> Prop :=
| ancestor_parent n p : _parent (objs n) = Some p -> ancestor objs n p
| ancestor_above n p a :
    _parent (objs n) = Some p -> ancestor objs p a -> ancestor objs n a.

(** The objects that the loops of [_findClosestAncestor] and
    [_findFurthestAncestor] look at: [node], its parent and so on, up to the
    root or up to and including [last]. *)
Fixpoint visited (fuel : nat) (objs : Store) (node last : option ref)
  : option (list ref) :=
  match node with
  | None => Some []
  | Some n =>
      if strict_eq (Some n) last then Some [n]
      else
        match fuel with
        | O => None
        | S fuel' =>
            option_map (cons n) (visited fuel' objs (_parent (objs n)) last)
        end
  end.

(** [node._hasFlags(flags) === on] *)
Definition in_state (objs : Store) (flags : Z) (on : bool) (n : ref) : bool :=
  Bool.eqb (_hasFlags objs n flags) on.

(** [get mask()], source lines 624-626. *)
Definition get_mask (objs : Store) (this : ref) : option ref :=
  _mask (objs this).

(** The graphics that [_getContentBounds] takes into account: those of a
    [Shape] or of a [Sprite]. *)
Definition own_graphics (o : DisplayObject) : option Graphics :=
  if instanceof_Shape (class o) then _graphics o
  else if instanceof_Sprite (class o) then _graphics o
  else None.

End Relations.

(** ** More scenes *)

Module Samples.

(** The tree of [Scene.tree] in which the shape [B] has graphics, with
    bounds (0, 0, 10, 10) with strokes and (1, 1, 8, 8) without, and its
    bounds are invalid. *)
Definition drawn : Scene.ZStore :=
  fun r =>
    match r with
    | 2%nat =>
        mkDisplayObject ShapeClass (bits InvalidBounds) None (Some Scene.A)
          None None [] (translation 0 0) (translation 0 0) (1, 0) None
          (Some (rectangle 5 5 5 5)) (Some (rectangle 5 5 5 5))
          (Some (rectangle 0 0 10 10, rectangle 1 1 8 8))
    | _ => Scene.tree r
    end.

End Samples.
(** *** Facts about the 32-bit operators *)

Lemma ToInt32_range z : is_int32 (ToInt32 z).
Proof.
  unfold is_int32, ToInt32.
  pose proof (Z.mod_pos_bound (z + 2 ^ 31) (2 ^ 32) ltac:(lia)). lia.
Qed.

Lemma ToInt32_id z : is_int32 z -> ToInt32 z = z.
Proof.
  unfold is_int32, ToInt32. intros Hz.
  rewrite Z.mod_small by lia. lia.
Qed.

Lemma ToInt32_mask f : is_mask f -> ToInt32 f = f.
Proof. unfold is_mask. intros Hf. apply ToInt32_id. unfold is_int32. lia. Qed.

Lemma ToInt32_testbit z i :
  0 <= i < 32 -> Z.testbit (ToInt32 z) i = Z.testbit z i.
Proof.
  intros Hi.
  rewrite <- (Z.mod_pow2_bits_low (ToInt32 z) 32 i) by lia.
  rewrite <- (Z.mod_pow2_bits_low z 32 i) by lia.
  f_equal. unfold ToInt32.
  rewrite Zminus_mod, Zmod_mod, <- Zminus_mod.
  f_equal. lia.
Qed.

Lemma mask_testbit_high f i :
  is_mask f -> 31 <= i -> Z.testbit f i = false.
Proof.
  unfold is_mask. intros [Hlo Hhi] Hi.
  destruct (Z.eq_dec f 0) as [-> | Hnz].
  - apply Z.testbit_0_l.
  - apply Z.bits_above_log2; [lia |].
    assert (Z.log2 f < 31) by (apply Z.log2_lt_pow2; lia). lia.
Qed.

Lemma bits_is_mask f : is_mask (bits f).
Proof. unfold is_mask. destruct f; simpl; lia. Qed.

(** [flags_has] tests that every bit of the mask is set in the word. *)
Lemma flags_has_spec word f :
  is_mask f ->
  flags_has word f = true <->
  (forall i, 0 <= i -> Z.testbit f i = true -> Z.testbit word i = true).
Proof.
  intros Hf. unfold flags_has, js_and.
  rewrite (ToInt32_mask f Hf), Z.eqb_eq. split.
  - intros Heq i Hi Hbit.
    assert (Hlt : i < 31).
    { destruct (Z_lt_le_dec i 31) as [Hlt | Hge]; [exact Hlt |].
      rewrite (mask_testbit_high f i Hf Hge) in Hbit. discriminate. }
    rewrite <- (ToInt32_testbit word i) by lia.
    rewrite <- Heq, Z.land_spec in Hbit.
    apply andb_prop in Hbit. tauto.
  - intros Hall. apply Z.bits_inj'. intros i Hi.
    rewrite Z.land_spec.
    destruct (Z.testbit f i) eqn:Hbit; [| apply andb_false_r].
    assert (Hlt : i < 31).
    { destruct (Z_lt_le_dec i 31) as [Hlt | Hge]; [exact Hlt |].
      rewrite (mask_testbit_high f i Hf Hge) in Hbit. discriminate. }
    rewrite ToInt32_testbit by lia.
    rewrite (Hall i Hi Hbit). reflexivity.
Qed.

Lemma flags_or_testbit word g i :
  0 <= i < 32 ->
  Z.testbit (flags_or word g) i = Z.testbit word i || Z.testbit g i.
Proof.
  intros Hi. unfold flags_or, js_or.
  rewrite Z.lor_spec, !ToInt32_testbit by lia. reflexivity.
Qed.

Lemma flags_andnot_testbit word g i :
  0 <= i < 32 ->
  Z.testbit (flags_andnot word g) i = Z.testbit word i && negb (Z.testbit g i).
Proof.
  intros Hi. unfold flags_andnot, js_and, js_not.
  rewrite Z.land_spec, !ToInt32_testbit by lia.
  rewrite Z.lnot_spec by lia.
  rewrite ToInt32_testbit by lia. reflexivity.
Qed.

Lemma mask_bit_low f i :
  is_mask f -> 0 <= i -> Z.testbit f i = true -> 0 <= i < 32.
Proof.
  intros Hf Hi Hbit. split; [exact Hi |].
  destruct (Z_lt_le_dec i 31) as [Hlt | Hge]; [lia |].
  rewrite (mask_testbit_high f i Hf Hge) in Hbit. discriminate.
Qed.

(** After [_flags |= f] the word has [f]. *)
Lemma flags_has_or_same word f :
  is_mask f -> flags_has (flags_or word f) f = true.
Proof.
  intros Hf. apply flags_has_spec; [exact Hf |].
  intros i Hi Hbit.
  rewrite flags_or_testbit by (eapply mask_bit_low; eauto).
  rewrite Hbit. apply orb_true_r.
Qed.

(** [_flags |= g] never takes a mask away. *)
Lemma flags_has_or_mono word f g :
  is_mask f -> flags_has word f = true -> flags_has (flags_or word g) f = true.
Proof.
  intros Hf Hhas. apply flags_has_spec; [exact Hf |].
  intros i Hi Hbit.
  rewrite flags_or_testbit by (eapply mask_bit_low; eauto).
  rewrite (proj1 (flags_has_spec word f Hf) Hhas i Hi Hbit). reflexivity.
Qed.

(** [_flags &= ~g] keeps a mask that shares no bit with [g]. *)
Lemma flags_has_andnot_disjoint word f g :
  is_mask f -> Z.land f g = 0 ->
  flags_has word f = true -> flags_has (flags_andnot word g) f = true.
Proof.
  intros Hf Hdisj Hhas. apply flags_has_spec; [exact Hf |].
  intros i Hi Hbit.
  rewrite flags_andnot_testbit by (eapply mask_bit_low; eauto).
  rewrite (proj1 (flags_has_spec word f Hf) Hhas i Hi Hbit).
  assert (Hg : Z.testbit (Z.land f g) i = false)
    by (rewrite Hdisj; apply Z.testbit_0_l).
  rewrite Z.land_spec, Hbit in Hg. simpl in Hg. rewrite Hg. reflexivity.
Qed.

(** ** The store *)

Section StoreFacts.

Context `{Geom : Geometry}.

Lemma update_same (objs : Store) r f : update objs r f r = f (objs r).
Proof. unfold update. rewrite Nat.eqb_refl. reflexivity. Qed.

Lemma update_other (objs : Store) r r' f :
  r' <> r -> update objs r f r' = objs r'.
Proof.
  intros Hne. unfold update.
  destruct (Nat.eqb_spec r' r) as [Heq | _]; [contradiction | reflexivity].
Qed.

Lemma strict_eq_true p q : strict_eq p q = true <-> p = q.
Proof.
  destruct p as [r |], q as [s |]; simpl; split; intros Heq;
    try discriminate; try reflexivity.
  - apply Nat.eqb_eq in Heq. congruence.
  - inversion Heq. apply Nat.eqb_refl.
Qed.

Lemma strict_eq_false p q : strict_eq p q = false <-> p <> q.
Proof.
  split.
  - intros Hf Heq. apply strict_eq_true in Heq. congruence.
  - intros Hne. destruct (strict_eq p q) eqn:He; [| reflexivity].
    apply strict_eq_true in He. contradiction.
Qed.

Lemma flags_only_refl objs : flags_only objs objs.
Proof. intros r. reflexivity. Qed.

Lemma flags_only_trans objs1 objs2 objs3 :
  flags_only objs1 objs2 -> flags_only objs2 objs3 -> flags_only objs1 objs3.
Proof. intros H12 H23 r. rewrite H23. apply H12. Qed.

Lemma flags_only_update objs r g :
  flags_only objs (update objs r (fun o => with_flags (g o) o)).
Proof.
  intros r'. unfold update. destruct (Nat.eqb r' r); reflexivity.
Qed.

Lemma flags_only_setFlags objs r f : flags_only objs (_setFlags objs r f).
Proof. apply (flags_only_update objs r (fun o => flags_or (_flags o) f)). Qed.

Lemma flags_only_removeFlags objs r f : flags_only objs (_removeFlags objs r f).
Proof. apply (flags_only_update objs r (fun o => flags_andnot (_flags o) f)). Qed.

Lemma flags_only_parent objs objs' r :
  flags_only objs objs' -> _parent (objs' r) = _parent (objs r).
Proof.
  intros Hfo. change (_parent (with_flags 0 (objs' r)) = _parent (with_flags 0 (objs r))).
  rewrite Hfo. reflexivity.
Qed.

Lemma flags_only_children objs objs' r :
  flags_only objs objs' -> _children (objs' r) = _children (objs r).
Proof.
  intros Hfo. change (_children (with_flags 0 (objs' r)) = _children (with_flags 0 (objs r))).
  rewrite Hfo. reflexivity.
Qed.

Lemma flags_only_class objs objs' r :
  flags_only objs objs' -> class (objs' r) = class (objs r).
Proof.
  intros Hfo. change (class (with_flags 0 (objs' r)) = class (with_flags 0 (objs r))).
  rewrite Hfo. reflexivity.
Qed.

Lemma flags_only_mask objs objs' r :
  flags_only objs objs' -> _mask (objs' r) = _mask (objs r).
Proof.
  intros Hfo. change (_mask (with_flags 0 (objs' r)) = _mask (with_flags 0 (objs r))).
  rewrite Hfo. reflexivity.
Qed.

Lemma flags_only_maskedObject objs objs' r :
  flags_only objs objs' -> _maskedObject (objs' r) = _maskedObject (objs r).
Proof.
  intros Hfo.
  change (_maskedObject (with_flags 0 (objs' r)) = _maskedObject (with_flags 0 (objs r))).
  rewrite Hfo. reflexivity.
Qed.

(** The parent chain only depends on the [_parent] fields. *)
Lemma ancestors_within_ext (objs objs' : Store) node n :
  (forall r, _parent (objs' r) = _parent (objs r)) ->
  ancestors_within objs' node n = ancestors_within objs node n.
Proof.
  intros Hsame. revert node.
  induction n as [| n IH]; intros [r |]; simpl; try reflexivity.
  rewrite Hsame. apply IH.
Qed.

Lemma ancestors_within_flags_only objs objs' node n :
  flags_only objs objs' ->
  ancestors_within objs' node n = ancestors_within objs node n.
Proof.
  intros Hfo. apply ancestors_within_ext.
  intros r. apply flags_only_parent, Hfo.
Qed.

Lemma ancestors_within_parent (objs : Store) r n :
  ancestors_within objs (Some r) (S n) = true ->
  ancestors_within objs (_parent (objs r)) n = true.
Proof. simpl. tauto. Qed.

Lemma ancestors_within_S (objs : Store) node n :
  ancestors_within objs node n = true ->
  ancestors_within objs node (S n) = true.
Proof.
  revert node. induction n as [| n IH]; intros [r |] Hw; try reflexivity.
  - discriminate.
  - simpl in Hw. change (ancestors_within objs (_parent (objs r)) (S n) = true).
    apply IH, Hw.
Qed.

(** ** Flags *)

Lemma hasFlags_setFlags_same objs r f :
  is_mask f -> _hasFlags (_setFlags objs r f) r f = true.
Proof.
  intros Hf. unfold _hasFlags, _setFlags. rewrite update_same. simpl.
  apply flags_has_or_same, Hf.
Qed.

Lemma hasFlags_setFlags_mono objs r g x f :
  is_mask f -> _hasFlags objs x f = true ->
  _hasFlags (_setFlags objs r g) x f = true.
Proof.
  intros Hf Hhas. unfold _hasFlags, _setFlags, update.
  destruct (Nat.eqb_spec x r) as [-> | _]; [| exact Hhas].
  simpl. apply flags_has_or_mono; assumption.
Qed.

Lemma direction_has_omitted which : direction_has None which = false.
Proof. reflexivity. Qed.

(** ** Propagation *)

Lemma propagateFlags_equation fuel (objs : Store) this flags direction :
  _propagateFlags (S fuel) objs this flags direction =
  if _hasFlags objs this flags then Some objs
  else
    match
      (if direction_has direction Direction.Upward
       then setFlags_upward fuel (_setFlags objs this flags)
              (_parent (_setFlags objs this flags this)) flags
       else Some (_setFlags objs this flags))
    with
    | None => None
    | Some objs =>
        if direction_has direction Direction.Downward then
          if instanceof_DisplayObjectContainer (class (objs this)) then
            for_children
              (fun objs child =>
                 if negb (_hasFlags objs child flags)
                 then _propagateFlags fuel objs child flags None
                 else Some objs)
              (_children (objs this)) objs
          else Some objs
        else Some objs
    end.
Proof. reflexivity. Qed.

(** A call with no direction marks the receiver and nothing else. *)
Lemma propagateFlags_omitted fuel (objs : Store) this flags :
  _propagateFlags (S fuel) objs this flags None =
  Some (if _hasFlags objs this flags then objs else _setFlags objs this flags).
Proof.
  rewrite propagateFlags_equation, !direction_has_omitted.
  destruct (_hasFlags objs this flags); reflexivity.
Qed.

Section Invariant.

(** A property of the store that setting [flags] on any object keeps. *)
Variable flags : Z.
Variable P : Store -> Prop.
Hypothesis P_setFlags : forall objs r, P objs -> P (_setFlags objs r flags).

Lemma setFlags_upward_keeps fuel : forall objs node objs',
  P objs -> setFlags_upward fuel objs node flags = Some objs' -> P objs'.
Proof.
  induction fuel as [| fuel IH]; intros objs [n |] objs' HP Hrun;
    simpl in Hrun; try discriminate.
  - inversion Hrun; subst; exact HP.
  - eapply IH; [| exact Hrun]. apply P_setFlags, HP.
  - inversion Hrun; subst; exact HP.
Qed.

Lemma for_children_keeps (visit : Store -> ref -> option Store) :
  (forall objs child objs', P objs -> visit objs child = Some objs' -> P objs') ->
  forall children objs objs',
    P objs -> for_children visit children objs = Some objs' -> P objs'.
Proof.
  intros Hvisit. induction children as [| child rest IH];
    intros objs objs' HP Hrun; simpl in Hrun.
  - inversion Hrun; subst; exact HP.
  - destruct (visit objs child) as [objs1 |] eqn:Hv; [| discriminate].
    eapply IH; [| exact Hrun]. eapply Hvisit; eauto.
Qed.

Lemma propagateFlags_keeps fuel : forall objs this direction objs',
  P objs -> _propagateFlags fuel objs this flags direction = Some objs' ->
  P objs'.
Proof.
  induction fuel as [| fuel IH]; intros objs this direction objs' HP Hrun;
    [discriminate |].
  rewrite propagateFlags_equation in Hrun.
  destruct (_hasFlags objs this flags).
  { inversion Hrun; subst; exact HP. }
  assert (HP1 : P (_setFlags objs this flags)) by (apply P_setFlags, HP).
  destruct (if direction_has direction Direction.Upward
            then setFlags_upward fuel (_setFlags objs this flags)
                   (_parent (_setFlags objs this flags this)) flags
            else Some (_setFlags objs this flags)) as [objs2 |] eqn:Hup;
    [| discriminate].
  assert (HP2 : P objs2).
  { destruct (direction_has direction Direction.Upward).
    - eapply setFlags_upward_keeps; eauto.
    - inversion Hup; subst; exact HP1. }
  destruct (direction_has direction Direction.Downward);
    [| inversion Hrun; subst; exact HP2].
  destruct (instanceof_DisplayObjectContainer (class (objs2 this)));
    [| inversion Hrun; subst; exact HP2].
  eapply for_children_keeps; [| exact HP2 | exact Hrun].
  intros o child o' HPo Hvisit. simpl in Hvisit.
  destruct (negb (_hasFlags o child flags)).
  - eapply IH; eauto.
  - inversion Hvisit; subst; exact HPo.
Qed.

End Invariant.

(** Propagation changes flag words only. *)
Lemma propagateFlags_flags_only fuel objs this flags direction objs' :
  _propagateFlags fuel objs this flags direction = Some objs' ->
  flags_only objs objs'.
Proof.
  apply (propagateFlags_keeps flags (flags_only objs)).
  - intros o r Ho. eapply flags_only_trans; [exact Ho |].
    apply flags_only_setFlags.
  - apply flags_only_refl.
Qed.

(** Propagation never takes a mask away from any object. *)
Lemma propagateFlags_mono fuel objs this flags direction objs' x f :
  is_mask f -> _hasFlags objs x f = true ->
  _propagateFlags fuel objs this flags direction = Some objs' ->
  _hasFlags objs' x f = true.
Proof.
  intros Hf Hhas.
  apply (propagateFlags_keeps flags (fun o => _hasFlags o x f = true)).
  - intros o r Ho. apply hasFlags_setFlags_mono; assumption.
  - exact Hhas.
Qed.

(** After a call that returns, the receiver has the flags. *)
Lemma propagateFlags_receiver fuel objs this flags direction objs' :
  is_mask flags ->
  _propagateFlags fuel objs this flags direction = Some objs' ->
  _hasFlags objs' this flags = true.
Proof.
  intros Hf Hrun. destruct fuel as [| fuel]; [discriminate |].
  destruct (_hasFlags objs this flags) eqn:Hhas.
  - eapply propagateFlags_mono; eauto.
  - pose proof Hrun as Hrun'.
    rewrite propagateFlags_equation, Hhas in Hrun'.
    (* the same run, started after the receiver was marked *)
    assert (Hmarked : _hasFlags (_setFlags objs this flags) this flags = true)
      by (apply hasFlags_setFlags_same, Hf).
    destruct (if direction_has direction Direction.Upward
              then setFlags_upward fuel (_setFlags objs this flags)
                     (_parent (_setFlags objs this flags this)) flags
              else Some (_setFlags objs this flags)) as [objs2 |] eqn:Hup;
      [| discriminate].
    assert (H2 : _hasFlags objs2 this flags = true).
    { destruct (direction_has direction Direction.Upward).
      - eapply (setFlags_upward_keeps flags
                  (fun o => _hasFlags o this flags = true)); eauto.
        intros o r Ho. apply hasFlags_setFlags_mono; assumption.
      - inversion Hup; subst; exact Hmarked. }
    destruct (direction_has direction Direction.Downward);
      [| inversion Hrun'; subst; exact H2].
    destruct (instanceof_DisplayObjectContainer (class (objs2 this)));
      [| inversion Hrun'; subst; exact H2].
    eapply (for_children_keeps (fun o => _hasFlags o this flags = true));
      [| exact H2 | exact Hrun'].
    intros o child o' Ho Hvisit. simpl in Hvisit.
    destruct (negb (_hasFlags o child flags)).
    + eapply propagateFlags_mono; eauto.
    + inversion Hvisit; subst; exact Ho.
Qed.

(** *** Termination *)

Lemma setFlags_upward_returns fuel : forall (objs : Store) node flags,
  ancestors_within objs node fuel = true ->
  exists objs', setFlags_upward fuel objs node flags = Some objs'.
Proof.
  induction fuel as [| fuel IH]; intros objs [n |] flags Hw; simpl;
    try (eexists; reflexivity); try discriminate.
  apply IH.
  rewrite (ancestors_within_flags_only objs) by apply flags_only_setFlags.
  rewrite (flags_only_parent objs) by apply flags_only_setFlags.
  apply ancestors_within_parent, Hw.
Qed.

Lemma for_children_omitted_returns fuel flags : forall children (objs : Store),
  exists objs',
    for_children
      (fun objs child =>
         if negb (_hasFlags objs child flags)
         then _propagateFlags (S fuel) objs child flags None
         else Some objs)
      children objs = Some objs'.
Proof.
  induction children as [| child rest IH]; intros objs; cbn [for_children].
  - eexists; reflexivity.
  - destruct (negb (_hasFlags objs child flags)).
    + rewrite propagateFlags_omitted. apply IH.
    + apply IH.
Qed.

(** A call returns when the receiver's parent chain ends within the loop
    bound. *)
Lemma propagateFlags_returns fuel (objs : Store) this flags direction :
  ancestors_within objs (Some this) (S fuel) = true ->
  exists objs', _propagateFlags (S (S fuel)) objs this flags direction = Some objs'.
Proof.
  intros Hw. rewrite propagateFlags_equation.
  destruct (_hasFlags objs this flags); [eexists; reflexivity |].
  assert (Hup : exists objs2,
    (if direction_has direction Direction.Upward
     then setFlags_upward (S fuel) (_setFlags objs this flags)
            (_parent (_setFlags objs this flags this)) flags
     else Some (_setFlags objs this flags)) = Some objs2).
  { destruct (direction_has direction Direction.Upward);
      [| eexists; reflexivity].
    apply setFlags_upward_returns.
    rewrite (ancestors_within_flags_only objs) by apply flags_only_setFlags.
    rewrite (flags_only_parent objs) by apply flags_only_setFlags.
    apply ancestors_within_S, ancestors_within_parent, Hw. }
  destruct Hup as [objs2 ->].
  destruct (direction_has direction Direction.Downward);
    [| eexists; reflexivity].
  destruct (instanceof_DisplayObjectContainer (class (objs2 this)));
    [| eexists; reflexivity].
  apply for_children_omitted_returns.
Qed.

End StoreFacts.

(** ** Properties of propagation and the flag setters *)

Section PropagationProperties.

Context `{Geom : Geometry}.

Lemma for_children_keeps_in (P : Store -> Prop)
  (visit : Store -> ref -> option Store) (children : list ref) :
  (forall objs child objs',
     In child children -> P objs -> visit objs child = Some objs' -> P objs') ->
  forall objs objs',
    P objs -> for_children visit children objs = Some objs' -> P objs'.
Proof.
  induction children as [| child rest IH]; intros Hvisit objs objs' HP Hrun;
    simpl in Hrun.
  - inversion Hrun; subst; exact HP.
  - destruct (visit objs child) as [objs1 |] eqn:Hv; [| discriminate].
    apply (IH (fun o c o' Hin => Hvisit o c o' (or_intror Hin)) objs1 objs');
      [| exact Hrun].
    apply (Hvisit objs child objs1 (or_introl eq_refl) HP Hv).
Qed.

(** Downward propagation writes to the receiver and to its children and
    to no other object: the call made on a child carries no direction. *)
Lemma propagateFlags_downward_frame fuel (objs : Store) this flags objs' x :
  _propagateFlags fuel objs this flags (Some Direction.Downward) = Some objs' ->
  x <> this -> ~ In x (_children (objs this)) ->
  objs' x = objs x.
Proof.
  intros Hrun Hx Hnot. destruct fuel as [| fuel]; [discriminate |].
  rewrite propagateFlags_equation in Hrun.
  destruct (_hasFlags objs this flags); [inversion Hrun; reflexivity |].
  change (direction_has (Some Direction.Downward) Direction.Upward) with false in Hrun.
  change (direction_has (Some Direction.Downward) Direction.Downward) with true in Hrun.
  cbv iota in Hrun.
  assert (Hx1 : _setFlags objs this flags x = objs x)
    by (apply update_other, Hx).
  assert (Hch : _children (_setFlags objs this flags this) = _children (objs this))
    by (apply flags_only_children, flags_only_setFlags).
  destruct (instanceof_DisplayObjectContainer (class (_setFlags objs this flags this)));
    [| inversion Hrun; subst; exact Hx1].
  rewrite Hch in Hrun.
  eapply (for_children_keeps_in (fun o => o x = objs x)); [| exact Hx1 | exact Hrun].
  intros o child o' Hin Ho Hvisit. simpl in Hvisit.
  destruct (negb (_hasFlags o child flags)); [| inversion Hvisit; subst; exact Ho].
  destruct fuel as [| fuel]; [discriminate |].
  rewrite propagateFlags_omitted in Hvisit. inversion Hvisit; subst.
  destruct (_hasFlags o child flags); [exact Ho |].
  unfold _setFlags. rewrite update_other; [exact Ho |].
  intros ->. contradiction.
Qed.

(** What downward propagation does reach: after a call on a container
    that lacked the flags, every child has them. *)
Lemma propagateFlags_downward_children fuel (objs : Store) this flags objs' :
  is_mask flags ->
  _hasFlags objs this flags = false ->
  instanceof_DisplayObjectContainer (class (objs this)) = true ->
  _propagateFlags fuel objs this flags (Some Direction.Downward) = Some objs' ->
  forall child, In child (_children (objs this)) ->
    _hasFlags objs' child flags = true.
Proof.
  intros Hf Hhas Hclass Hrun. destruct fuel as [| fuel]; [discriminate |].
  rewrite propagateFlags_equation, Hhas in Hrun.
  change (direction_has (Some Direction.Downward) Direction.Upward) with false in Hrun.
  change (direction_has (Some Direction.Downward) Direction.Downward) with true in Hrun.
  cbv iota in Hrun.
  rewrite (flags_only_class objs), Hclass in Hrun by apply flags_only_setFlags.
  rewrite (flags_only_children objs) in Hrun by apply flags_only_setFlags.
  revert Hrun. generalize (_setFlags objs this flags) as start.
  induction (_children (objs this)) as [| first rest IH];
    intros start Hrun child Hin; [contradiction |].
  cbn [for_children] in Hrun.
  destruct (negb (_hasFlags start first flags)) eqn:Hneed.
  - destruct (_propagateFlags fuel start first flags None) as [next |] eqn:Hcall;
      [| discriminate].
    destruct Hin as [<- | Hin]; [| eapply IH; eauto].
    eapply (for_children_keeps (fun o => _hasFlags o first flags = true));
      [| | exact Hrun].
    + intros o c o' Ho Hvisit. cbv beta in Hvisit.
      destruct (negb (_hasFlags o c flags));
        [eapply propagateFlags_mono; eauto | inversion Hvisit; subst; exact Ho].
    + eapply propagateFlags_receiver; eauto.
  - destruct Hin as [<- | Hin]; [| eapply IH; eauto].
    eapply (for_children_keeps (fun o => _hasFlags o first flags = true));
      [| | exact Hrun].
    + intros o c o' Ho Hvisit. cbv beta in Hvisit.
      destruct (negb (_hasFlags o c flags));
        [eapply propagateFlags_mono; eauto | inversion Hvisit; subst; exact Ho].
    + apply negb_false_iff in Hneed. exact Hneed.
Qed.

(** C5: two calls of [_propagateFlags(flags, direction)] in a row leave the
    store that one call leaves; the second call finds the flags on the
    receiver, returns at once and writes to no object. *)
Theorem propagateFlags_twice fuel (objs : Store) this flags direction :
  is_mask flags ->
  ancestors_within objs (Some this) (S fuel) = true ->
  exists objs1,
    _propagateFlags (S (S fuel)) objs this flags direction = Some objs1 /\
    _hasFlags objs1 this flags = true /\
    _propagateFlags (S (S fuel)) objs1 this flags direction = Some objs1.
Proof.
  intros Hf Hw.
  destruct (propagateFlags_returns fuel objs this flags direction Hw)
    as [objs1 Hrun].
  exists objs1.
  pose proof (propagateFlags_receiver _ _ _ _ _ _ Hf Hrun) as Hhas.
  repeat split; try assumption.
  rewrite propagateFlags_equation, Hhas. reflexivity.
Qed.

(** C9: the [visible] setter never clears [Visible]: an object that has
    the flag has it after [set visible(value)] on any object, whatever
    [value] is. *)
Theorem set_visible_keeps_Visible (objs : Store) this value x :
  _hasFlags objs x (bits Visible) = true ->
  _hasFlags (set_visible objs this value) x (bits Visible) = true.
Proof.
  intros Hhas. unfold set_visible.
  destruct (Bool.eqb value (_hasFlags objs this (bits Visible))); [exact Hhas |].
  assert (Hset : _hasFlags (_setFlags objs this (bits Visible)) x (bits Visible) = true)
    by (apply hasFlags_setFlags_mono; [apply bits_is_mask | exact Hhas]).
  unfold _hasFlags, _removeFlags, update in *.
  destruct (Nat.eqb x this); [| exact Hset].
  cbn [_flags with_flags]. apply flags_has_andnot_disjoint;
    [apply (bits_is_mask Visible) | reflexivity | exact Hset].
Qed.

(** Asking for [false] on a visible object does not return early: the
    setter sets [Visible] again and clears [AnimatedByTimeline]. *)
Lemma set_visible_false_on_visible (objs : Store) this :
  get_visible objs this = true ->
  set_visible objs this false =
  _removeFlags (_setFlags objs this (bits Visible)) this (bits AnimatedByTimeline).
Proof.
  unfold get_visible, set_visible. intros ->. reflexivity.
Qed.

(** C10: [set x(value)] (and [set y(value)]) with a value whose twips
    equal the stored [tx] (or [ty]) returns the store it was given: no
    flag is written, [AnimatedByTimeline] stays, and nothing is
    propagated. *)
Theorem set_x_y_same_value fuel (objs : Store) this value :
  (number_strict_eq (twips_of value) (tx (_matrix (objs this))) = true ->
   set_x fuel objs this value = Some objs) /\
  (number_strict_eq (twips_of value) (ty (_matrix (objs this))) = true ->
   set_y fuel objs this value = Some objs).
Proof.
  split; intros Heq; [unfold set_x | unfold set_y]; rewrite Heq; reflexivity.
Qed.

End PropagationProperties.

(** C2: on the tree [R] > [A] > [B] with no flag set,
    [R._propagateFlags(InvalidConcatenatedMatrix, Downward)] marks [R] and
    its child [A] and leaves the descendant [B] unmarked. *)
Theorem propagateFlags_downward_misses_grandchild :
  descendant Scene.tree Scene.R Scene.B /\
  exists objs',
    _propagateFlags 3 Scene.tree Scene.R ICM (Some Direction.Downward) = Some objs' /\
    _hasFlags objs' Scene.R ICM = true /\
    _hasFlags objs' Scene.A ICM = true /\
    _hasFlags objs' Scene.B ICM = false.
Proof.
  split.
  - apply descendant_deeper with (c := Scene.A).
    + simpl. left. reflexivity.
    + apply descendant_child. simpl. left. reflexivity.
  - eexists. split; [reflexivity |]. repeat split; vm_compute; reflexivity.
Qed.

(** ** Properties of the ancestor path and the lazy reads *)

Section ReadProperties.

Context `{Geom : Geometry}.



Lemma getAncestors_loop_stop fuel (objs : Store) node last path :
  strict_eq (Some node) last = false ->
  getAncestors_loop fuel objs (Some node) last path = Some (path, Some node).
Proof.
  intros Hne. destruct fuel; cbn [getAncestors_loop]; rewrite Hne; reflexivity.
Qed.

Lemma getAncestors_loop_null fuel (objs : Store) last path :
  getAncestors_loop fuel objs None last path = Some (path, None).
Proof. destruct fuel; reflexivity. Qed.

(** [_getAncestors] on a display object that is not its own parent: the
    loop only runs when [node] is [last], that is at most once, and the
    node it stops at is never [last]. *)
Lemma getAncestors_throws fuel (w : World) node last :
  _parent (objects w node) <> Some node ->
  exists path,
    _getAncestors (S fuel) w (Some node) last =
    Some (Throw not_an_ancestor, mkWorld (objects w) path) /\
    (path = [] \/ path = [node]).
Proof.
  intros Hself. unfold _getAncestors.
  destruct (strict_eq (Some node) last) eqn:Hlast.
  - cbn [getAncestors_loop]. rewrite Hlast.
    apply strict_eq_true in Hlast. subst last.
    exists [node]. split; [| auto].
    destruct (_parent (objects w node)) as [p |] eqn:Hp.
    + assert (Hne : strict_eq (Some p) (Some node) = false)
        by (apply strict_eq_false; congruence).
      rewrite getAncestors_loop_stop by exact Hne.
      rewrite Hne. reflexivity.
    + rewrite getAncestors_loop_null. reflexivity.
  - rewrite getAncestors_loop_stop by exact Hlast.
    rewrite Hlast. exists []. auto.
Qed.




(** Reading a valid cache returns the cached matrix and writes nothing. *)
Lemma getConcatenatedMatrix_valid fuel (w : World) this :
  _hasFlags (objects w) this ICM = false ->
  _getConcatenatedMatrix fuel w this = Some (Normal (concatenatedMatrix_of this), w).
Proof.
  intros Hhas. unfold _getConcatenatedMatrix.
  cbn [var_strict_eq]. rewrite Hhas. reflexivity.
Qed.


End ReadProperties.

(** C3: in the tree [R] > [A] > [B], [A] is the parent of [B] and the
    path from [B] up to but excluding [A] is [[B]]; the code's
    [_getAncestors(B, A)] leaves the array empty and fails its assertion,
    although [A] is an ancestor of [B]. *)
Theorem getAncestors_of_child_and_parent :
  _isAncestor 5 Scene.tree Scene.B (Some Scene.A) = Some true /\
  spec_pathTo 5 Scene.tree (Some Scene.B) (Some Scene.A) = Some (Some [Scene.B]) /\
  _getAncestors 5 (Scene.world Scene.tree) (Some Scene.B) (Some Scene.A) =
  Some (Throw not_an_ancestor, Scene.world Scene.tree).
Proof. repeat split. Qed.

(** C1: in the tree [R] > [A] > [B], after [A.x = 10] and [B.y = 5] the
    full recomputation from the root gives the translation by (200, 100)
    twips for [B]; [B._getConcatenatedMatrix()] throws the assertion error
    of [_getAncestors], and [B] keeps its flag and its stale cached
    matrix. *)
Theorem getConcatenatedMatrix_after_moves :
  exists objs,
    Scene.moved = Some objs /\
    spec_concatenatedMatrix 5 objs (Some Scene.B) = Some (translation 200 100) /\
    exists w',
      _getConcatenatedMatrix 5 (Scene.world objs) Scene.B =
      Some (Throw not_an_ancestor, w') /\
      _hasFlags (objects w') Scene.B ICM = true /\
      _concatenatedMatrix (objects w' Scene.B) = translation 0 0.
Proof.
  eexists. split; [reflexivity |]. split; [reflexivity |].
  eexists. split; [reflexivity |]. split; reflexivity.
Qed.

(** ** Properties of the bounds *)

Section BoundsProperties.

Context `{Geom : Geometry}.

Lemma class_with_rectangle includeStrokes v (o : DisplayObject) :
  class (with_rectangle includeStrokes v o) = class o.
Proof. destruct includeStrokes; reflexivity. Qed.

Lemma rectangle_of_with_rectangle includeStrokes v (o : DisplayObject) :
  rectangle_of includeStrokes (with_rectangle includeStrokes v o) = Some v.
Proof. destruct includeStrokes; reflexivity. Qed.

(** On a container whose [InvalidBounds] flag is set the read never
    reaches its loop: it throws on [children] (or earlier, when the
    rectangle is [null]), and the flag stays set. *)
Lemma getContentBounds_container_throws (objs : Store) this includeStrokes :
  _hasFlags objs this (bits InvalidBounds) = true ->
  instanceof_DisplayObjectContainer (class (objs this)) = true ->
  exists e objs',
    _getContentBounds objs this includeStrokes = (Throw e, objs') /\
    (rectangle_of includeStrokes (objs this) <> None ->
     e = ReferenceError "children") /\
    _hasFlags objs' this (bits InvalidBounds) = true.
Proof.
  intros Hflag Hclass. unfold _getContentBounds. rewrite Hflag.
  destruct (rectangle_of includeStrokes (objs this)) as [rectangle |] eqn:Hrect.
  - set (objs1 := update objs this
                    (with_rectangle includeStrokes (Rectangle_setEmpty rectangle))).
    assert (Hclass1 : class (objs1 this) = class (objs this))
      by (unfold objs1; rewrite update_same; apply class_with_rectangle).
    assert (Hflags1 : _flags (objs1 this) = _flags (objs this))
      by (unfold objs1; rewrite update_same; destruct includeStrokes; reflexivity).
    set (graphics := if instanceof_Shape (class (objs1 this))
                     then _graphics (objs1 this)
                     else if instanceof_Sprite (class (objs1 this))
                          then _graphics (objs1 this) else None).
    destruct graphics as [g |].
    + match goal with
      | |- context [instanceof_DisplayObjectContainer (class (?o this))] =>
          set (objs2 := o)
      end.
      assert (H2 : class (objs2 this) = class (objs this) /\
                   _flags (objs2 this) = _flags (objs this)).
      { unfold objs2. rewrite update_same.
        destruct (rectangle_of includeStrokes (objs1 this));
          [destruct includeStrokes |]; simpl; auto. }
      destruct H2 as [Hc2 Hf2]. rewrite Hc2, Hclass. simpl.
      do 2 eexists. split; [reflexivity |]. split; [reflexivity |].
      unfold _hasFlags. rewrite Hf2. exact Hflag.
    + rewrite Hclass1, Hclass. simpl.
      do 2 eexists. split; [reflexivity |]. split; [reflexivity |].
      unfold _hasFlags. rewrite Hflags1. exact Hflag.
  - do 2 eexists. split; [reflexivity |]. split; [congruence | exact Hflag].
Qed.

(** On an object that is neither a container nor has graphics, the
    recomputed bounds are the emptied rectangle. *)
Lemma getContentBounds_plain (objs : Store) this includeStrokes rectangle :
  _hasFlags objs this (bits InvalidBounds) = true ->
  class (objs this) = DisplayObjectClass ->
  rectangle_of includeStrokes (objs this) = Some rectangle ->
  fst (_getContentBounds objs this includeStrokes) =
  Normal (Some (Rectangle_setEmpty rectangle)).
Proof.
  intros Hflag Hclass Hrect. unfold _getContentBounds.
  rewrite Hflag, Hrect.
  assert (Hc : class (update objs this
                        (with_rectangle includeStrokes (Rectangle_setEmpty rectangle))
                        this) = DisplayObjectClass)
    by (rewrite update_same, class_with_rectangle; exact Hclass).
  rewrite Hc.
  cbn [instanceof_Shape instanceof_Sprite instanceof_DisplayObjectContainer].
  rewrite Hc.
  cbn [instanceof_DisplayObjectContainer fst].
  unfold _removeFlags. rewrite !update_same.
  destruct includeStrokes; reflexivity.
Qed.

(** X19: with valid caches on both objects and valid, non-empty bounds the
    value returned is the bounds mapped through
    [inverse(target's matrix) * this object's matrix]; the composed matrix
    is left in the target's cache. *)
Lemma getTransformedBounds_valid fuel (w : World) this target includeStroke bounds :
  target <> this ->
  _hasFlags (objects w) this (bits InvalidBounds) = false ->
  rectangle_of includeStroke (objects w this) = Some bounds ->
  Rectangle_isEmpty bounds = false ->
  _hasFlags (objects w) target ICM = false ->
  _hasFlags (objects w) this ICM = false ->
  exists w',
    _getTransformedBounds fuel w this (Some target) includeStroke false =
    Some (Normal
            (Matrix_transformRectAABB
               (Matrix_concat
                  (Matrix_invert (_concatenatedMatrix (objects w target)))
                  (_concatenatedMatrix (objects w this))) bounds), w') /\
    _concatenatedMatrix (objects w' target) =
    Matrix_concat (Matrix_invert (_concatenatedMatrix (objects w target)))
      (_concatenatedMatrix (objects w this)).
Proof.
  intros Hne Hbounds Hrect Hnonempty Htarget Hthis.
  unfold _getTransformedBounds, _getContentBounds.
  rewrite Hbounds, Hrect. cbn [objects _path].
  assert (Hse : strict_eq (Some target) (Some this) = false)
    by (apply strict_eq_false; congruence).
  rewrite Hse, Hnonempty. cbn [orb].
  rewrite getConcatenatedMatrix_valid by exact Htarget.
  cbn [Matrix_mutate objects _path].
  rewrite getConcatenatedMatrix_valid.
  2:{ cbn [objects]. unfold _hasFlags.
      rewrite (update_other _ target this) by congruence. exact Hthis. }
  cbn [Matrix_mutate Matrix_read objects _path].
  rewrite (update_other _ target this) by congruence.
  eexists. split; [rewrite !update_same; reflexivity |].
  cbn [objects]. rewrite !update_same. reflexivity.
Qed.

End BoundsProperties.

(** C7: in the tree [R] > [A] > [B] the only child of the sprite [A] is
    [B], whose bounds are (0, 0, 10, 10).  With [InvalidBounds] set on [A],
    [A._getContentBounds()] throws a reference error on [children] instead
    of returning (0, 0, 10, 10), and [A] keeps the flag. *)
Theorem getContentBounds_of_parent :
  let objs := _setFlags Scene.tree Scene.A (bits InvalidBounds) in
  _children (objs Scene.A) = [Scene.B] /\
  fst (_getContentBounds objs Scene.B true) = Normal (Some (rectangle 0 0 10 10)) /\
  fst (_getContentBounds objs Scene.A true) = Throw (ReferenceError "children") /\
  _hasFlags (snd (_getContentBounds objs Scene.A true)) Scene.A (bits InvalidBounds) = true.
Proof. repeat split. Qed.

(** C8: in the tree [R] > [A] > [B], after [A.x = 10] and [B.y = 5], [B]
    has the non-empty bounds (0, 0, 10, 10), and mapping them through
    [inverse(R's concatenated matrix) * B's concatenated matrix] gives
    (200, 100, 10, 10); [B._getTransformedBounds(R, true)] throws the
    assertion error of [_getAncestors] instead. *)
Theorem getTransformedBounds_after_moves :
  exists objs,
    Scene.moved = Some objs /\
    fst (_getContentBounds objs Scene.B true) = Normal (Some (rectangle 0 0 10 10)) /\
    Rectangle_isEmpty (rectangle 0 0 10 10) = false /\
    spec_transformedBounds 5 objs Scene.B Scene.R (rectangle 0 0 10 10) =
      Some (rectangle 200 100 10 10) /\
    Scene.outcome
      (_getTransformedBounds 5 (Scene.world objs) Scene.B (Some Scene.R) true false) =
      Some (Throw not_an_ancestor).
Proof.
  eexists. split; [reflexivity |]. repeat split.
Qed.

(** A display object as the initializer leaves it has [InvalidBounds]
    clear and [_bounds] set to [null]: the read returns [null], not an
    empty rectangle. *)
Lemma getContentBounds_fresh_object :
  _getContentBounds Scene.loose Scene.T1 true = (Normal None, Scene.loose).
Proof. reflexivity. Qed.

(** ** Properties of the mask *)

Section MaskProperties.

Context `{Geom : Geometry}.

Lemma set_mask_equation fuel (objs : Store) this value :
  set_mask (S fuel) objs this value =
  if strict_eq (_mask (objs this)) value || strict_eq value (Some this)
  then Some objs
  else
    match
      (match value with
       | Some v =>
           match _maskedObject (objs v) with
           | Some masked => set_mask fuel objs masked None
           | None => Some objs
           end
       | None => Some objs
       end)
    with
    | None => None
    | Some objs =>
        let objs := update objs this (with_mask value) in
        let objs :=
          match value with
          | Some v => update objs v (with_maskedObject (Some this))
          | None => objs
          end in
        _invalidatePaint fuel objs this
    end.
Proof. reflexivity. Qed.

Lemma invalidatePaint_flags_only fuel (objs : Store) this objs' :
  _invalidatePaint fuel objs this = Some objs' -> flags_only objs objs'.
Proof. apply propagateFlags_flags_only. Qed.

Lemma strict_eq_Some r s : strict_eq (Some r) (Some s) = Nat.eqb r s.
Proof. reflexivity. Qed.

(** The links that a call of the setter leaves are those of [mask_after]
    and [maskedObject_after], and no [_parent] changes. *)
Lemma set_mask_fields fuel : forall (objs : Store) this value objs',
  set_mask fuel objs this value = Some objs' ->
  forall r,
    _mask (objs' r) = mask_after objs this value r /\
    _maskedObject (objs' r) = maskedObject_after objs this value r /\
    _parent (objs' r) = _parent (objs r).
Proof.
  induction fuel as [| fuel IH]; intros objs this value objs' Hrun r;
    [discriminate |].
  rewrite set_mask_equation in Hrun.
  unfold mask_after, maskedObject_after.
  destruct (strict_eq (_mask (objs this)) value || strict_eq value (Some this)).
  { inversion Hrun; subst; auto. }
  destruct value as [v |].
  - destruct (_maskedObject (objs v)) as [masked |] eqn:Hmasked.
    + destruct (set_mask fuel objs masked None) as [inner |] eqn:Hinner;
        [| discriminate].
      destruct (IH _ _ _ _ Hinner r) as (Hm & Hb & Hp).
      unfold mask_after, maskedObject_after in Hm, Hb.
      apply invalidatePaint_flags_only in Hrun.
      rewrite (flags_only_mask _ _ r Hrun), (flags_only_maskedObject _ _ r Hrun),
        (flags_only_parent _ _ r Hrun).
      rewrite strict_eq_Some. unfold update.
      destruct (strict_eq (_mask (objs masked)) None || strict_eq None (Some masked)) eqn:Hearly.
      * apply orb_prop in Hearly. destruct Hearly as [He | He]; [| discriminate].
        apply strict_eq_true in He.
        destruct (Nat.eqb_spec r v), (Nat.eqb_spec r this), (Nat.eqb_spec masked r);
          subst; cbn; repeat split; congruence.
      * destruct (Nat.eqb_spec r v), (Nat.eqb_spec r this), (Nat.eqb_spec masked r),
          (Nat.eqb_spec r masked); subst; cbn; repeat split; congruence.
    + apply invalidatePaint_flags_only in Hrun.
      rewrite (flags_only_mask _ _ r Hrun), (flags_only_maskedObject _ _ r Hrun),
        (flags_only_parent _ _ r Hrun).
      unfold update. cbn [strict_eq].
      destruct (Nat.eqb_spec r v), (Nat.eqb_spec r this); subst; cbn;
        repeat split; congruence.
  - apply invalidatePaint_flags_only in Hrun.
    rewrite (flags_only_mask _ _ r Hrun), (flags_only_maskedObject _ _ r Hrun),
      (flags_only_parent _ _ r Hrun).
    unfold update.
    destruct (Nat.eqb_spec r this); subst; cbn; repeat split; congruence.
Qed.

Lemma invalidatePaint_returns fuel (objs : Store) this :
  ancestors_within objs (Some this) (S fuel) = true ->
  exists objs', _invalidatePaint (S (S fuel)) objs this = Some objs'.
Proof. apply propagateFlags_returns. Qed.

(** The setter returns when every parent chain ends within the bound. *)
Lemma set_mask_returns fuel (objs : Store) this value :
  (forall r, ancestors_within objs (Some r) (S fuel) = true) ->
  exists objs', set_mask (S (S (S (S fuel)))) objs this value = Some objs'.
Proof.
  intros Hw. rewrite set_mask_equation.
  destruct (strict_eq (_mask (objs this)) value || strict_eq value (Some this));
    [eexists; reflexivity |].
  assert (Hinner : exists inner,
    (match value with
     | Some v =>
         match _maskedObject (objs v) with
         | Some masked => set_mask (S (S (S fuel))) objs masked None
         | None => Some objs
         end
     | None => Some objs
     end) = Some inner /\ forall r, _parent (inner r) = _parent (objs r)).
  { destruct value as [v |]; [| exists objs; auto].
    destruct (_maskedObject (objs v)) as [masked |]; [| exists objs; auto].
    assert (Hret : exists inner, set_mask (S (S (S fuel))) objs masked None = Some inner).
    { rewrite set_mask_equation.
      destruct (strict_eq (_mask (objs masked)) None || strict_eq None (Some masked));
        [eexists; reflexivity |].
      apply invalidatePaint_returns.
      rewrite (ancestors_within_ext objs); [apply Hw |].
      intros r. unfold update. destruct (Nat.eqb r masked); reflexivity. }
    destruct Hret as [inner Hret]. exists inner. split; [exact Hret |].
    intros r. apply (set_mask_fields _ _ _ _ _ Hret r). }
  destruct Hinner as (inner & -> & Hparents).
  cbv zeta.
  apply (propagateFlags_returns (S fuel)).
  rewrite (ancestors_within_ext objs); [apply ancestors_within_S, Hw |].
  intros r. rewrite <- Hparents.
  destruct value as [v |]; unfold update;
    [destruct (Nat.eqb r v) |]; destruct (Nat.eqb r this); reflexivity.
Qed.

Lemma ancestors_within_le (objs : Store) node n m :
  (n <= m)%nat ->
  ancestors_within objs node n = true -> ancestors_within objs node m = true.
Proof.
  induction 1 as [| m Hle IH]; intros Hw; [exact Hw |].
  apply ancestors_within_S, IH, Hw.
Qed.

(** The setter keeps the mask links consistent. *)
Lemma set_mask_keeps_links fuel (objs : Store) this value objs' :
  mask_links_consistent objs ->
  set_mask fuel objs this value = Some objs' ->
  mask_links_consistent objs'.
Proof.
  intros Hcons Hrun a m Hmask.
  destruct (set_mask_fields _ _ _ _ _ Hrun a) as (Ha & _ & _).
  destruct (set_mask_fields _ _ _ _ _ Hrun m) as (_ & Hm & _).
  rewrite Ha in Hmask. rewrite Hm.
  unfold mask_after, maskedObject_after in *.
  destruct (strict_eq (_mask (objs this)) value || strict_eq value (Some this));
    [apply Hcons, Hmask |].
  destruct value as [v |].
  - destruct (Nat.eqb_spec a this) as [-> | Hne].
    + inversion Hmask; subst. rewrite Nat.eqb_refl. reflexivity.
    + destruct (strict_eq (_maskedObject (objs v)) (Some a)) eqn:Hold;
        [discriminate |].
      apply Hcons in Hmask.
      destruct (Nat.eqb_spec m v) as [-> | _]; [| exact Hmask].
      apply strict_eq_false in Hold. contradiction.
  - destruct (Nat.eqb_spec a this); [discriminate |].
    apply Hcons, Hmask.
Qed.

(** C6, amended: for a mask [m] and two distinct targets [t1] and [t2],
    both different from [m], in a store whose mask links are consistent,
    [t1.mask = m] followed by [t2.mask = m] leaves [t2] masked by [m],
    [t1] without a mask, and [m._maskedObject] equal to [t2]. *)
Theorem set_mask_exclusive n fuel (objs : Store) m t1 t2 :
  t1 <> t2 -> m <> t1 -> m <> t2 ->
  mask_links_consistent objs ->
  (forall r, ancestors_within objs (Some r) n = true) ->
  (n + 3 <= fuel)%nat ->
  masks_only_second fuel objs m t1 t2.
Proof.
  intros H12 Hm1 Hm2 Hcons Hw Hfuel. unfold masks_only_second.
  assert (Hn : (1 <= n)%nat).
  { destruct n; [| lia]. specialize (Hw t1). discriminate. }
  destruct fuel as [| [| [| [| k]]]]; try lia.
  assert (Hwk : forall r, ancestors_within objs (Some r) (S k) = true).
  { intros r. apply (ancestors_within_le objs (Some r) n); [lia | apply Hw]. }
  destruct (set_mask_returns k objs t1 (Some m) Hwk) as [objs1 Hrun1].
  pose proof (set_mask_fields _ _ _ _ _ Hrun1) as F1.
  assert (Hwk1 : forall r, ancestors_within objs1 (Some r) (S k) = true).
  { intros r. rewrite (ancestors_within_ext objs); [apply Hwk |].
    intros r'. apply F1. }
  destruct (set_mask_returns k objs1 t2 (Some m) Hwk1) as [objs2 Hrun2].
  pose proof (set_mask_fields _ _ _ _ _ Hrun2) as F2.
  exists objs1, objs2. split; [exact Hrun1 |]. split; [exact Hrun2 |].
  (* after the first call *)
  assert (H1 : _mask (objs1 t1) = Some m /\ _maskedObject (objs1 m) = Some t1 /\
               _mask (objs1 t2) <> Some m).
  { destruct (F1 t1) as (Ha & _ & _). destruct (F1 m) as (_ & Hb & _).
    destruct (F1 t2) as (Hc & _ & _).
    rewrite Ha, Hb, Hc. unfold mask_after, maskedObject_after.
    assert (Hself : strict_eq (Some m) (Some t1) = false)
      by (apply strict_eq_false; congruence).
    rewrite Hself, orb_false_r.
    destruct (strict_eq (_mask (objs t1)) (Some m)) eqn:Hearly.
    - apply strict_eq_true in Hearly.
      pose proof (Hcons _ _ Hearly) as Hback.
      repeat split; try assumption.
      intros H2. apply Hcons in H2. congruence.
    - rewrite !Nat.eqb_refl.
      destruct (Nat.eqb_spec t2 t1) as [Heq | _]; [congruence |].
      repeat split.
      destruct (strict_eq (_maskedObject (objs m)) (Some t2)) eqn:Hold;
        [discriminate |].
      intros H2. apply Hcons in H2. apply strict_eq_false in Hold. contradiction. }
  destruct H1 as (Hmask1 & Hback1 & Hfree2).
  (* the second call *)
  destruct (F2 t2) as (Ha & _ & _). destruct (F2 t1) as (Hb & _ & _).
  destruct (F2 m) as (_ & Hc & _).
  rewrite Ha, Hb, Hc. unfold mask_after, maskedObject_after.
  assert (Hearly : strict_eq (_mask (objs1 t2)) (Some m) = false)
    by (apply strict_eq_false; exact Hfree2).
  assert (Hself : strict_eq (Some m) (Some t2) = false)
    by (apply strict_eq_false; congruence).
  rewrite Hearly, Hself. cbn [orb].
  rewrite !Nat.eqb_refl, Hback1.
  destruct (Nat.eqb_spec t1 t2) as [Heq | _]; [congruence |].
  rewrite strict_eq_Some, Nat.eqb_refl. auto.
Qed.

End MaskProperties.

(** C6 as stated fails when the mask is itself the second target: with
    [m = T2], [T1.mask = T2] followed by [T2.mask = T2] does not leave
    [T2] masked by [T2]; the second call returns at its first test. *)
Lemma set_mask_own_target_counterexample :
  Scene.T1 <> Scene.T2 /\
  ~ masks_only_second 5 Scene.loose Scene.T2 Scene.T1 Scene.T2.
Proof.
  split; [discriminate |].
  intros (objs1 & objs2 & Hrun1 & Hrun2 & Hmask & _).
  destruct (set_mask_fields _ _ _ _ _ Hrun2 Scene.T2) as (Hsecond & _).
  destruct (set_mask_fields _ _ _ _ _ Hrun1 Scene.T2) as (Hfirst & _).
  unfold mask_after in Hsecond.
  rewrite (proj2 (strict_eq_true (Some Scene.T2) (Some Scene.T2)) eq_refl),
    orb_true_r in Hsecond.
  rewrite Hsecond, Hfirst in Hmask. discriminate.
Qed.

(** Why the amended statement keeps the mask apart from the first target
    too: with [m = T1], and [T1] masked by [X] beforehand, the first
    assignment is ignored and [T1] keeps its mask. *)
Lemma set_mask_first_target_is_mask :
  mask_links_consistent Scene.premasked /\
  ~ masks_only_second 5 Scene.premasked Scene.T1 Scene.T1 Scene.T2.
Proof.
  split.
  - intros r m. unfold Scene.premasked, update.
    destruct r as [| [| [| [| r]]]]; simpl; intros Hm; inversion Hm; reflexivity.
  - intros (objs1 & objs2 & Hrun1 & Hrun2 & _ & Hnone & _).
    pose proof (set_mask_fields _ _ _ _ _ Hrun1) as F1.
    destruct (set_mask_fields _ _ _ _ _ Hrun2 Scene.T1) as (Hsecond & _).
    unfold mask_after in Hsecond.
    rewrite (proj1 (F1 Scene.T2)), (proj1 (F1 Scene.T1)),
      (proj1 (proj2 (F1 Scene.T1))) in Hsecond.
    rewrite Hsecond in Hnone. vm_compute in Hnone. discriminate.
Qed.

(** Why the amended statement asks for consistent links: when [T2] names
    [M] as its mask although [M] points back to nothing, the second
    assignment returns at its first test and [T1] stays masked. *)
Lemma set_mask_unanswered_link :
  ~ mask_links_consistent Scene.unanswered /\
  ~ masks_only_second 5 Scene.unanswered Scene.M Scene.T1 Scene.T2.
Proof.
  split.
  - intros Hcons. specialize (Hcons Scene.T2 Scene.M eq_refl). discriminate.
  - intros (objs1 & objs2 & Hrun1 & Hrun2 & _ & Hnone & _).
    pose proof (set_mask_fields _ _ _ _ _ Hrun1) as F1.
    destruct (set_mask_fields _ _ _ _ _ Hrun2 Scene.T1) as (Hsecond & _).
    unfold mask_after in Hsecond.
    rewrite (proj1 (F1 Scene.T2)), (proj1 (F1 Scene.T1)),
      (proj1 (proj2 (F1 Scene.M))) in Hsecond.
    rewrite Hsecond in Hnone. vm_compute in Hnone. discriminate.
Qed.

(** ** Further properties: the flag word *)

Lemma flags_has_or_disjoint word f g :
  is_mask f -> Z.land f g = 0 ->
  flags_has (flags_or word g) f = flags_has word f.
Proof.
  intros Hf Hdisj. apply eq_true_iff_eq. split; intros Hhas.
  - apply flags_has_spec; [exact Hf |]. intros i Hi Hbit.
    pose proof (proj1 (flags_has_spec _ f Hf) Hhas i Hi Hbit) as Hor.
    rewrite flags_or_testbit in Hor by (eapply mask_bit_low; eauto).
    assert (Hg : Z.testbit (Z.land f g) i = false)
      by (rewrite Hdisj; apply Z.testbit_0_l).
    rewrite Z.land_spec, Hbit in Hg. simpl in Hg.
    rewrite Hg, orb_false_r in Hor. exact Hor.
  - apply flags_has_or_mono; assumption.
Qed.

Lemma flags_has_andnot_disjoint_eq word f g :
  is_mask f -> Z.land f g = 0 ->
  flags_has (flags_andnot word g) f = flags_has word f.
Proof.
  intros Hf Hdisj. apply eq_true_iff_eq. split; intros Hhas.
  - apply flags_has_spec; [exact Hf |]. intros i Hi Hbit.
    pose proof (proj1 (flags_has_spec _ f Hf) Hhas i Hi Hbit) as Hand.
    rewrite flags_andnot_testbit in Hand by (eapply mask_bit_low; eauto).
    apply andb_prop in Hand. tauto.
  - apply flags_has_andnot_disjoint; assumption.
Qed.

Lemma flags_has_andnot_same word f :
  is_mask f -> f <> 0 -> flags_has (flags_andnot word f) f = false.
Proof.
  intros Hf Hnz. destruct (flags_has (flags_andnot word f) f) eqn:Hhas;
    [| reflexivity].
  assert (Hpos : 0 < f) by (unfold is_mask in Hf; lia).
  pose proof (Z.bit_log2 f Hpos) as Hbit.
  pose proof (Z.log2_nonneg f) as Hi.
  pose proof (proj1 (flags_has_spec _ f Hf) Hhas _ Hi Hbit) as Hand.
  rewrite flags_andnot_testbit in Hand by (eapply mask_bit_low; eauto).
  rewrite Hbit in Hand. rewrite andb_false_r in Hand. discriminate.
Qed.

Lemma flags_hasAny_andnot_same word f :
  is_mask f -> flags_hasAny (flags_andnot word f) f = false.
Proof.
  intros Hf. unfold flags_hasAny.
  assert (Hzero : js_and (flags_andnot word f) f = 0).
  { unfold js_and. rewrite (ToInt32_mask f Hf).
    apply Z.bits_inj'. intros i Hi.
    rewrite Z.land_spec, Z.testbit_0_l.
    destruct (Z.testbit f i) eqn:Hbit; [| apply andb_false_r].
    pose proof (mask_bit_low f i Hf Hi Hbit) as Hlow.
    rewrite ToInt32_testbit by exact Hlow.
    rewrite flags_andnot_testbit by exact Hlow.
    rewrite Hbit. simpl. rewrite andb_false_r. reflexivity. }
  rewrite Hzero. reflexivity.
Qed.

Section FlagProperties.

Context `{Geom : Geometry}.

Lemma hasFlags_setFlags_disjoint (objs : Store) r g x f :
  is_mask f -> Z.land f g = 0 ->
  _hasFlags (_setFlags objs r g) x f = _hasFlags objs x f.
Proof.
  intros Hf Hdisj. unfold _hasFlags, _setFlags, update.
  destruct (Nat.eqb_spec x r) as [-> | _]; [| reflexivity].
  cbn [_flags with_flags]. apply flags_has_or_disjoint; assumption.
Qed.

Lemma hasFlags_removeFlags_disjoint (objs : Store) r g x f :
  is_mask f -> Z.land f g = 0 ->
  _hasFlags (_removeFlags objs r g) x f = _hasFlags objs x f.
Proof.
  intros Hf Hdisj. unfold _hasFlags, _removeFlags, update.
  destruct (Nat.eqb_spec x r) as [-> | _]; [| reflexivity].
  cbn [_flags with_flags]. apply flags_has_andnot_disjoint_eq; assumption.
Qed.

(** X1: [_toggleFlags(flags, true)] leaves the object with all of [flags];
    [_toggleFlags(flags, false)] leaves it with none of them. *)
Theorem toggleFlags_roundtrip (objs : Store) this flags :
  is_mask flags ->
  _hasFlags (_toggleFlags objs this flags true) this flags = true /\
  _hasAnyFlags (_toggleFlags objs this flags false) this flags = false /\
  (flags <> 0 -> _hasFlags (_toggleFlags objs this flags false) this flags = false).
Proof.
  intros Hf. cbn [_toggleFlags]. split; [apply hasFlags_setFlags_same, Hf |].
  unfold _hasAnyFlags, _hasFlags, _removeFlags. rewrite update_same.
  cbn [_flags with_flags]. split.
  - apply flags_hasAny_andnot_same, Hf.
  - intros Hnz. apply flags_has_andnot_same; assumption.
Qed.

(** X2: setting or removing flags on any object leaves every test of flags
    that share no bit with them as it was, on every object. *)
Theorem flags_are_independent (objs : Store) this changed x tested :
  is_mask tested -> Z.land tested changed = 0 ->
  _hasFlags (_setFlags objs this changed) x tested = _hasFlags objs x tested /\
  _hasFlags (_removeFlags objs this changed) x tested = _hasFlags objs x tested.
Proof.
  intros Hf Hdisj. split.
  - apply hasFlags_setFlags_disjoint; assumption.
  - apply hasFlags_removeFlags_disjoint; assumption.
Qed.

End FlagProperties.

(** ** Further properties: propagation *)

Section PropagationExtras.

Context `{Geom : Geometry}.

Lemma ancestor_ext (objs objs' : Store) n a :
  (forall r, _parent (objs' r) = _parent (objs r)) ->
  ancestor objs n a -> ancestor objs' n a.
Proof.
  intros Hsame Hanc. induction Hanc as [n p Hp | n p a Hp _ IH].
  - apply ancestor_parent. rewrite Hsame. exact Hp.
  - apply ancestor_above with p; [rewrite Hsame; exact Hp | exact IH].
Qed.

Lemma ancestor_setFlags (objs : Store) r f n a :
  ancestor (_setFlags objs r f) n a <-> ancestor objs n a.
Proof.
  split; apply ancestor_ext; intros x.
  - symmetry. apply flags_only_parent, flags_only_setFlags.
  - apply flags_only_parent, flags_only_setFlags.
Qed.

(** The upward loop marks the node it starts at and every ancestor of it. *)
Lemma setFlags_upward_marks fuel : forall (objs : Store) n flags objs' a,
  is_mask flags ->
  setFlags_upward fuel objs (Some n) flags = Some objs' ->
  a = n \/ ancestor objs n a ->
  _hasFlags objs' a flags = true.
Proof.
  induction fuel as [| fuel IH]; intros objs n flags objs' a Hf Hrun Ha;
    [discriminate |].
  cbn [setFlags_upward] in Hrun.
  rewrite (flags_only_parent objs) in Hrun by apply flags_only_setFlags.
  destruct Ha as [-> | Hanc].
  - apply (setFlags_upward_keeps flags (fun o => _hasFlags o n flags = true))
      with (3 := Hrun).
    + intros o r Ho. apply hasFlags_setFlags_mono; assumption.
    + apply hasFlags_setFlags_same, Hf.
  - inversion Hanc as [n' p Hp | n' p a' Hp Habove]; subst;
      rewrite Hp in Hrun.
    + eapply IH; eauto.
    + eapply IH; [exact Hf | exact Hrun |].
      right. apply ancestor_setFlags. exact Habove.
Qed.

(** The upward loop writes to no other object. *)
Lemma setFlags_upward_frame fuel : forall (objs : Store) node flags objs' x,
  setFlags_upward fuel objs node flags = Some objs' ->
  (forall n, node = Some n -> x <> n /\ ~ ancestor objs n x) ->
  objs' x = objs x.
Proof.
  induction fuel as [| fuel IH]; intros objs [n |] flags objs' x Hrun Hx;
    cbn [setFlags_upward] in Hrun; try discriminate;
    try (inversion Hrun; reflexivity).
  destruct (Hx n eq_refl) as [Hne Hnot].
  rewrite (flags_only_parent objs) in Hrun by apply flags_only_setFlags.
  rewrite (IH _ _ _ _ x Hrun).
  - unfold _setFlags. apply update_other, Hne.
  - intros p Hp. split.
    + intros ->. apply Hnot. apply ancestor_parent, Hp.
    + intros Hanc. apply Hnot. apply ancestor_above with p; [exact Hp |].
      apply ancestor_setFlags in Hanc. exact Hanc.
Qed.

(** A call on a receiver that lacks the flags: the store after the
    upward part, and what the downward part keeps. *)
Lemma propagateFlags_parts fuel (objs : Store) this flags direction objs' :
  _hasFlags objs this flags = false ->
  _propagateFlags (S fuel) objs this flags direction = Some objs' ->
  exists marked,
    (if direction_has direction Direction.Upward
     then setFlags_upward fuel (_setFlags objs this flags)
            (_parent (objs this)) flags
     else Some (_setFlags objs this flags)) = Some marked /\
    (forall x g, is_mask g -> _hasFlags marked x g = true ->
                 _hasFlags objs' x g = true) /\
    (direction_has direction Direction.Downward = false -> objs' = marked).
Proof.
  intros Hhas Hrun. rewrite propagateFlags_equation, Hhas in Hrun.
  rewrite (flags_only_parent objs) in Hrun by apply flags_only_setFlags.
  destruct (if direction_has direction Direction.Upward
            then setFlags_upward fuel (_setFlags objs this flags)
                   (_parent (objs this)) flags
            else Some (_setFlags objs this flags)) as [marked |];
    [| discriminate].
  exists marked. split; [reflexivity |].
  destruct (direction_has direction Direction.Downward).
  - split; [| discriminate].
    destruct (instanceof_DisplayObjectContainer (class (marked this)));
      [| inversion Hrun; subst; auto].
    intros x g Hg Hx.
    eapply (for_children_keeps (fun o => _hasFlags o x g = true));
      [| exact Hx | exact Hrun].
    intros o child o' Ho Hvisit. cbv beta in Hvisit.
    destruct (negb (_hasFlags o child flags));
      [eapply propagateFlags_mono; eauto | inversion Hvisit; subst; exact Ho].
  - inversion Hrun; subst. auto.
Qed.

(** X3: upward propagation from an object that lacks the flags returns,
    and afterwards the object and every ancestor of it have the flags. *)
Theorem propagateFlags_upward_marks_ancestors fuel (objs : Store) this flags
  direction :
  is_mask flags ->
  ancestors_within objs (Some this) (S fuel) = true ->
  _hasFlags objs this flags = false ->
  direction_has direction Direction.Upward = true ->
  exists objs',
    _propagateFlags (S (S fuel)) objs this flags direction = Some objs' /\
    _hasFlags objs' this flags = true /\
    forall a, ancestor objs this a -> _hasFlags objs' a flags = true.
Proof.
  intros Hf Hw Hhas Hup.
  destruct (propagateFlags_returns fuel objs this flags direction Hw)
    as [objs' Hrun].
  exists objs'. split; [exact Hrun |].
  split; [eapply propagateFlags_receiver; eauto |].
  intros a Hanc.
  destruct (propagateFlags_parts _ _ _ _ _ _ Hhas Hrun)
    as (marked & Hmarked & Hkeeps & _).
  rewrite Hup in Hmarked. apply Hkeeps; [exact Hf |].
  inversion Hanc as [n p Hp | n p a' Hp Habove]; subst;
    rewrite Hp in Hmarked.
  - eapply setFlags_upward_marks; eauto.
  - eapply setFlags_upward_marks; [exact Hf | exact Hmarked |].
    right. apply ancestor_setFlags. exact Habove.
Qed.

(** X4: propagation returns and only ever adds the propagated flags: no
    field other than a flag word changes, no object loses a flag it had,
    and a test of flags that share no bit with the propagated ones gives
    on every object what it gave before. *)
Theorem propagateFlags_only_adds_flags fuel (objs : Store) this flags direction :
  ancestors_within objs (Some this) (S fuel) = true ->
  exists objs',
    _propagateFlags (S (S fuel)) objs this flags direction = Some objs' /\
    flags_only objs objs' /\
    (forall x g, is_mask g -> _hasFlags objs x g = true ->
                 _hasFlags objs' x g = true) /\
    (forall x g, is_mask g -> Z.land g flags = 0 ->
                 _hasFlags objs' x g = _hasFlags objs x g).
Proof.
  intros Hw.
  destruct (propagateFlags_returns fuel objs this flags direction Hw)
    as [objs' Hrun].
  exists objs'. split; [exact Hrun |].
  split; [eapply propagateFlags_flags_only; eauto |].
  split.
  - intros x g Hg Hx. eapply propagateFlags_mono; eauto.
  - intros x g Hg Hdisj.
    apply (propagateFlags_keeps flags
             (fun o => _hasFlags o x g = _hasFlags objs x g))
      with (3 := Hrun); [| reflexivity].
    intros o r Ho. rewrite hasFlags_setFlags_disjoint; assumption.
Qed.

(** X5: propagation that is not downward writes to the receiver and to
    its ancestors only: every other object is afterwards what it was. *)
Theorem propagateFlags_upward_frame fuel (objs : Store) this flags direction :
  ancestors_within objs (Some this) (S fuel) = true ->
  direction_has direction Direction.Downward = false ->
  exists objs',
    _propagateFlags (S (S fuel)) objs this flags direction = Some objs' /\
    forall x, x <> this -> ~ ancestor objs this x -> objs' x = objs x.
Proof.
  intros Hw Hdown.
  destruct (propagateFlags_returns fuel objs this flags direction Hw)
    as [objs' Hrun].
  exists objs'. split; [exact Hrun |].
  intros x Hne Hnot.
  destruct (_hasFlags objs this flags) eqn:Hhas.
  - rewrite propagateFlags_equation, Hhas in Hrun. inversion Hrun; reflexivity.
  - destruct (propagateFlags_parts _ _ _ _ _ _ Hhas Hrun)
      as (marked & Hmarked & _ & Hsame).
    rewrite (Hsame Hdown).
    assert (Hstart : _setFlags objs this flags x = objs x)
      by (apply update_other, Hne).
    destruct (direction_has direction Direction.Upward);
      [| inversion Hmarked; subst; exact Hstart].
    rewrite (setFlags_upward_frame _ _ _ _ _ x Hmarked); [exact Hstart |].
    intros p Hp. split.
    + intros ->. apply Hnot. apply ancestor_parent, Hp.
    + intros Hanc. apply Hnot. apply ancestor_above with p; [exact Hp |].
      apply ancestor_setFlags in Hanc. exact Hanc.
Qed.

(** X6: downward propagation from a container that lacks the flags
    returns, and afterwards the container and every child of it have the
    flags. *)
Theorem propagateFlags_downward_marks_children fuel (objs : Store) this flags :
  is_mask flags ->
  ancestors_within objs (Some this) (S fuel) = true ->
  _hasFlags objs this flags = false ->
  instanceof_DisplayObjectContainer (class (objs this)) = true ->
  exists objs',
    _propagateFlags (S (S fuel)) objs this flags (Some Direction.Downward) =
      Some objs' /\
    _hasFlags objs' this flags = true /\
    forall child, In child (_children (objs this)) ->
      _hasFlags objs' child flags = true.
Proof.
  intros Hf Hw Hhas Hclass.
  destruct (propagateFlags_returns fuel objs this flags
              (Some Direction.Downward) Hw) as [objs' Hrun].
  exists objs'. split; [exact Hrun |].
  split; [eapply propagateFlags_receiver; eauto |].
  eapply propagateFlags_downward_children; eauto.
Qed.

End PropagationExtras.

(** ** Further properties: the ancestor searches *)

Section AncestorExtras.

Context `{Geom : Geometry}.

Lemma find_app {T : Type} (p : T -> bool) (l1 l2 : list T) :
  find p (l1 ++ l2) =
  match find p l1 with Some found => Some found | None => find p l2 end.
Proof.
  induction l1 as [| first rest IH]; [reflexivity |].
  simpl. destruct (p first); [reflexivity | exact IH].
Qed.

(** Every object visited is the start or one of its ancestors. *)
Lemma visited_ancestor fuel : forall (objs : Store) n last l a,
  visited fuel objs (Some n) last = Some l -> In a l ->
  a = n \/ ancestor objs n a.
Proof.
  induction fuel as [| fuel IH]; intros objs n last l a Hv Hin;
    cbn [visited] in Hv; destruct (strict_eq (Some n) last).
  - inversion Hv; subst. destruct Hin as [<- | []]. auto.
  - discriminate.
  - inversion Hv; subst. destruct Hin as [<- | []]. auto.
  - destruct (visited fuel objs (_parent (objs n)) last) as [rest |] eqn:Hrest;
      [| discriminate].
    inversion Hv; subst. destruct Hin as [<- | Hin]; [auto |].
    right. destruct (_parent (objs n)) as [p |] eqn:Hp.
    + destruct (IH _ _ _ _ _ Hrest Hin) as [-> | Hanc].
      * apply ancestor_parent, Hp.
      * apply ancestor_above with p; assumption.
    + destruct fuel; inversion Hrest; subst; contradiction.
Qed.

Lemma visited_starts_with fuel (objs : Store) n last l :
  visited fuel objs (Some n) last = Some l -> exists rest, l = n :: rest.
Proof.
  intros Hv. destruct fuel; cbn [visited] in Hv;
    destruct (strict_eq (Some n) last); try discriminate;
    try (inversion Hv; eexists; reflexivity).
  destruct (visited fuel objs (_parent (objs n)) last); [| discriminate].
  inversion Hv. eexists; reflexivity.
Qed.

Lemma findClosestAncestor_loop_find fuel : forall (objs : Store) node last flags on l,
  visited fuel objs node last = Some l ->
  findClosestAncestor_loop fuel objs node last flags on =
  Some (find (in_state objs flags on) l).
Proof.
  induction fuel as [| fuel IH]; intros objs [n |] last flags on l Hv;
    cbn [visited findClosestAncestor_loop] in *;
    try (inversion Hv; reflexivity).
  - destruct (strict_eq (Some n) last); [| discriminate].
    inversion Hv; subst. cbn [find]. unfold in_state.
    destruct (Bool.eqb (_hasFlags objs n flags) on); reflexivity.
  - destruct (strict_eq (Some n) last).
    + inversion Hv; subst. cbn [find]. unfold in_state.
      destruct (Bool.eqb (_hasFlags objs n flags) on); reflexivity.
    + destruct (visited fuel objs (_parent (objs n)) last) as [rest |] eqn:Hrest;
        [| discriminate].
      inversion Hv; subst. cbn [find]. unfold in_state at 1.
      destruct (Bool.eqb (_hasFlags objs n flags) on); [reflexivity |].
      apply IH, Hrest.
Qed.

Lemma findFurthestAncestor_loop_find fuel :
  forall (objs : Store) node last oldest flags on l,
  visited fuel objs node last = Some l ->
  findFurthestAncestor_loop fuel objs node last oldest flags on =
  Some (match find (in_state objs flags on) (rev l) with
        | Some found => Some found
        | None => oldest
        end).
Proof.
  induction fuel as [| fuel IH]; intros objs [n |] last oldest flags on l Hv;
    cbn [visited findFurthestAncestor_loop] in *;
    try (inversion Hv; reflexivity).
  - destruct (strict_eq (Some n) last); [| discriminate].
    inversion Hv; subst. cbn [rev app find]. unfold in_state.
    destruct (Bool.eqb (_hasFlags objs n flags) on); reflexivity.
  - destruct (strict_eq (Some n) last).
    + inversion Hv; subst. cbn [rev app find]. unfold in_state.
      destruct (Bool.eqb (_hasFlags objs n flags) on); reflexivity.
    + destruct (visited fuel objs (_parent (objs n)) last) as [rest |] eqn:Hrest;
        [| discriminate].
      inversion Hv; subst. cbn [rev]. rewrite find_app.
      rewrite (IH _ _ _ _ _ _ _ Hrest).
      destruct (find (in_state objs flags on) (rev rest)); [reflexivity |].
      cbn [find]. unfold in_state.
      destruct (Bool.eqb (_hasFlags objs n flags) on); reflexivity.
Qed.

(** X7: among the objects from the receiver up to the stage (or the
    root), [_findClosestAncestor] returns the first one whose flags are in
    the state asked for, and [_findFurthestAncestor] the last one; each
    returns [null] when there is none. *)
Theorem ancestor_searches_first_and_last fuel (objs : Store) this flags on l :
  visited fuel objs (Some this) (_stage (objs this)) = Some l ->
  _findClosestAncestor fuel objs this flags on =
    Some (find (in_state objs flags on) l) /\
  _findFurthestAncestor fuel objs this flags on =
    Some (find (in_state objs flags on) (rev l)).
Proof.
  intros Hv. split.
  - unfold _findClosestAncestor. apply findClosestAncestor_loop_find, Hv.
  - unfold _findFurthestAncestor.
    rewrite (findFurthestAncestor_loop_find _ _ _ _ _ _ _ _ Hv).
    destruct (find (in_state objs flags on) (rev l)); reflexivity.
Qed.

Lemma find_rev_none {T : Type} (p : T -> bool) (l : list T) :
  find p (rev l) = None <-> find p l = None.
Proof.
  split; intros Hnone.
  - destruct (find p l) as [found |] eqn:Hfound; [| reflexivity].
    apply find_some in Hfound. destruct Hfound as [Hin Hp].
    apply in_rev in Hin.
    rewrite (find_none _ _ Hnone found Hin) in Hp. discriminate.
  - destruct (find p (rev l)) as [found |] eqn:Hfound; [| reflexivity].
    apply find_some in Hfound. destruct Hfound as [Hin Hp].
    apply in_rev in Hin.
    rewrite (find_none _ _ Hnone found Hin) in Hp. discriminate.
Qed.

(** X8: the two searches fail together; what either finds is the
    receiver or an ancestor of it and has the flags in the state asked
    for; and a receiver that is itself in that state is its own closest
    match. *)
Theorem ancestor_searches_agree fuel (objs : Store) this flags on l :
  visited fuel objs (Some this) (_stage (objs this)) = Some l ->
  (_findClosestAncestor fuel objs this flags on = Some None <->
   _findFurthestAncestor fuel objs this flags on = Some None) /\
  (forall found,
     _findClosestAncestor fuel objs this flags on = Some (Some found) \/
     _findFurthestAncestor fuel objs this flags on = Some (Some found) ->
     (found = this \/ ancestor objs this found) /\
     _hasFlags objs found flags = on) /\
  (_hasFlags objs this flags = on ->
   _findClosestAncestor fuel objs this flags on = Some (Some this)).
Proof.
  intros Hv.
  unfold _findClosestAncestor, _findFurthestAncestor.
  rewrite (findClosestAncestor_loop_find _ _ _ _ flags on _ Hv).
  rewrite (findFurthestAncestor_loop_find _ _ _ _ None flags on _ Hv).
  split; [| split].
  - split; intros Hnone.
    + inversion Hnone as [Hfind].
      apply (proj2 (find_rev_none _ _)) in Hfind. rewrite Hfind. reflexivity.
    + destruct (find (in_state objs flags on) (rev l)) eqn:Hfind;
        [discriminate |].
      apply (proj1 (find_rev_none _ _)) in Hfind. rewrite Hfind. reflexivity.
  - intros found [Hfound | Hfound].
    + inversion Hfound as [Hfind]. apply find_some in Hfind.
      destruct Hfind as [Hin Hstate]. split.
      * eapply visited_ancestor; eauto.
      * apply eqb_prop, Hstate.
    + destruct (find (in_state objs flags on) (rev l)) as [b |] eqn:Hfind;
        [| discriminate].
      inversion Hfound; subst. apply find_some in Hfind.
      destruct Hfind as [Hin Hstate]. apply in_rev in Hin. split.
      * eapply visited_ancestor; eauto.
      * apply eqb_prop, Hstate.
  - intros Hstate.
    destruct (visited_starts_with _ _ _ _ _ Hv) as [rest ->].
    cbn [find]. unfold in_state at 1. rewrite Hstate, eqb_reflx. reflexivity.
Qed.

Lemma isAncestor_loop_true fuel : forall (objs : Store) n a,
  isAncestor_loop fuel objs (Some n) (Some a) = Some true ->
  a = n \/ ancestor objs n a.
Proof.
  induction fuel as [| fuel IH]; intros objs n a Hrun;
    cbn [isAncestor_loop] in Hrun;
    destruct (strict_eq (Some n) (Some a)) eqn:Heq; try discriminate;
    try (apply strict_eq_true in Heq; inversion Heq; auto).
  destruct (_parent (objs n)) as [p |] eqn:Hp.
  - right. destruct (IH _ _ _ Hrun) as [-> | Hanc].
    + apply ancestor_parent, Hp.
    + apply ancestor_above with p; assumption.
  - destruct fuel; discriminate.
Qed.

Lemma isAncestor_loop_false fuel : forall (objs : Store) n a,
  isAncestor_loop fuel objs (Some n) (Some a) = Some false ->
  a <> n /\ ~ ancestor objs n a.
Proof.
  induction fuel as [| fuel IH]; intros objs n a Hrun;
    cbn [isAncestor_loop] in Hrun;
    destruct (strict_eq (Some n) (Some a)) eqn:Heq; try discriminate.
  apply strict_eq_false in Heq.
  split; [congruence |]. intros Hanc.
  destruct (_parent (objs n)) as [p |] eqn:Hp.
  - destruct (IH _ _ _ Hrun) as [Hne Hnot].
    inversion Hanc as [n' p' Hp' | n' p' a' Hp' Habove]; subst;
      rewrite Hp in Hp'; inversion Hp'; subst; contradiction.
  - inversion Hanc as [n' p' Hp' | n' p' a' Hp' Habove]; subst;
      rewrite Hp in Hp'; discriminate.
Qed.

Lemma isAncestor_loop_returns fuel : forall (objs : Store) node candidate,
  ancestors_within objs node fuel = true ->
  exists answer, isAncestor_loop fuel objs node candidate = Some answer.
Proof.
  induction fuel as [| fuel IH]; intros objs [n |] candidate Hw;
    cbn [isAncestor_loop ancestors_within] in *;
    try discriminate; try (eexists; reflexivity).
  destruct (strict_eq (Some n) candidate); [eexists; reflexivity |].
  apply IH, Hw.
Qed.

Lemma isAncestor_loop_null fuel : forall (objs : Store) node answer,
  isAncestor_loop fuel objs node None = Some answer -> answer = false.
Proof.
  induction fuel as [| fuel IH]; intros objs [n |] answer Hrun;
    cbn [isAncestor_loop strict_eq] in Hrun; try discriminate;
    try (inversion Hrun; reflexivity).
  eapply IH, Hrun.
Qed.

(** X9: [_isAncestor(candidate)] returns, and its answer is [true]
    exactly when [candidate] is the receiver itself or one of its
    ancestors; for [null] the answer is [false]. *)
Theorem isAncestor_decides_ancestry fuel (objs : Store) this candidate :
  ancestors_within objs (Some this) fuel = true ->
  (exists answer,
     _isAncestor fuel objs this (Some candidate) = Some answer /\
     (answer = true <-> candidate = this \/ ancestor objs this candidate)) /\
  _isAncestor fuel objs this None = Some false.
Proof.
  intros Hw. unfold _isAncestor. split.
  - destruct (isAncestor_loop_returns fuel objs (Some this) (Some candidate) Hw)
      as [answer Hrun].
    exists answer. split; [exact Hrun |].
    destruct answer.
    + split; [intros _; eapply isAncestor_loop_true; eauto | reflexivity].
    + apply isAncestor_loop_false in Hrun. destruct Hrun as [Hne Hnot].
      split; [discriminate | intros [Heq | Hanc]; contradiction].
  - destruct (isAncestor_loop_returns fuel objs (Some this) None Hw)
      as [answer Hrun].
    rewrite Hrun. f_equal. eapply isAncestor_loop_null, Hrun.
Qed.

End AncestorExtras.

(** ** Further properties: the setters *)

Section SetterExtras.

Context `{Geom : Geometry}.

(** Stores that differ in flag words only agree on every other field. *)
Lemma flags_only_object (objs objs' : Store) r :
  flags_only objs objs' ->
  objs' r = with_flags (_flags (objs' r)) (objs r).
Proof.
  intros Hfo. specialize (Hfo r).
  destruct (objs' r), (objs r). cbn in *. inversion Hfo. reflexivity.
Qed.

Lemma propagateFlags_keeps_absent fuel (objs : Store) this flags direction
  objs' x g :
  is_mask g -> Z.land g flags = 0 ->
  _propagateFlags fuel objs this flags direction = Some objs' ->
  _hasFlags objs' x g = _hasFlags objs x g.
Proof.
  intros Hg Hdisj Hrun.
  apply (propagateFlags_keeps flags
           (fun o => _hasFlags o x g = _hasFlags objs x g))
    with (3 := Hrun); [| reflexivity].
  intros o r Ho. rewrite hasFlags_setFlags_disjoint; assumption.
Qed.

(** What [_invalidatePosition] leaves behind. *)
Lemma invalidatePosition_effect fuel (objs : Store) this :
  ancestors_within objs (Some this) (S fuel) = true ->
  exists objs',
    _invalidatePosition (S (S fuel)) objs this = Some objs' /\
    flags_only objs objs' /\
    _hasFlags objs' this ICM = true /\
    _hasFlags objs' this (bits AnimatedByTimeline) = false /\
    (forall p, _parent (objs this) = Some p ->
               _hasFlags objs' p (bits InvalidBounds) = true).
Proof.
  intros Hw. unfold _invalidatePosition.
  set (cleared := _removeFlags objs this (bits AnimatedByTimeline)).
  assert (Hfo0 : flags_only objs cleared) by apply flags_only_removeFlags.
  assert (Hw0 : ancestors_within cleared (Some this) (S fuel) = true)
    by (rewrite (ancestors_within_flags_only objs); assumption).
  destruct (propagateFlags_returns fuel cleared this ICM
              (Some Direction.Downward) Hw0) as [objs1 Hrun1].
  rewrite Hrun1.
  pose proof (propagateFlags_flags_only _ _ _ _ _ _ Hrun1) as Hfo1.
  assert (Hicm : _hasFlags objs1 this ICM = true)
    by (eapply propagateFlags_receiver; [apply (bits_is_mask InvalidConcatenatedMatrix) | eauto]).
  assert (Hanim0 : _hasFlags cleared this (bits AnimatedByTimeline) = false).
  { unfold cleared, _hasFlags, _removeFlags. rewrite update_same.
    cbn [_flags with_flags]. apply flags_has_andnot_same.
    - apply (bits_is_mask AnimatedByTimeline).
    - discriminate. }
  assert (Hanim1 : _hasFlags objs1 this (bits AnimatedByTimeline) = false).
  { rewrite (propagateFlags_keeps_absent _ cleared this ICM _ objs1 this
               (bits AnimatedByTimeline)
               (bits_is_mask AnimatedByTimeline) eq_refl Hrun1).
    exact Hanim0. }
  rewrite (flags_only_parent cleared objs1 this Hfo1).
  rewrite (flags_only_parent objs cleared this Hfo0).
  destruct (_parent (objs this)) as [p |] eqn:Hp.
  - assert (Hwp : ancestors_within objs1 (Some p) (S fuel) = true).
    { rewrite (ancestors_within_flags_only cleared) by exact Hfo1.
      rewrite (ancestors_within_flags_only objs) by exact Hfo0.
      apply ancestors_within_S.
      pose proof (ancestors_within_parent objs this fuel Hw) as Hpw.
      rewrite Hp in Hpw. exact Hpw. }
    destruct (propagateFlags_returns fuel objs1 p (bits InvalidBounds)
                (Some Direction.Upward) Hwp) as [objs2 Hrun2].
    unfold _invalidateBounds. rewrite Hrun2.
    exists objs2. split; [reflexivity |].
    pose proof (propagateFlags_flags_only _ _ _ _ _ _ Hrun2) as Hfo2.
    split; [eauto using flags_only_trans |].
    split.
    { eapply propagateFlags_mono;
        [apply (bits_is_mask InvalidConcatenatedMatrix) | exact Hicm | exact Hrun2]. }
    split.
    { rewrite (propagateFlags_keeps_absent _ objs1 p (bits InvalidBounds) _
                 objs2 this (bits AnimatedByTimeline)
                 (bits_is_mask AnimatedByTimeline) eq_refl Hrun2).
      exact Hanim1. }
    intros p' Hp'. inversion Hp'; subst.
    eapply propagateFlags_receiver;
      [apply (bits_is_mask InvalidBounds) | exact Hrun2].
  - exists objs1. split; [reflexivity |].
    split; [eauto using flags_only_trans |].
    repeat split; try assumption. intros p Hp'. discriminate.
Qed.

(** What a write of [_matrix] followed by [_invalidatePosition] leaves
    behind. *)
Lemma moved_effect fuel (objs : Store) this (f : Matrix -> Matrix) :
  ancestors_within objs (Some this) (S fuel) = true ->
  exists objs',
    _invalidatePosition (S (S fuel))
      (update objs this (fun o => with_matrix (f (_matrix o)) o)) this =
      Some objs' /\
    _matrix (objs' this) = f (_matrix (objs this)) /\
    (forall r, r <> this -> _matrix (objs' r) = _matrix (objs r)) /\
    (forall r, _concatenatedMatrix (objs' r) = _concatenatedMatrix (objs r)) /\
    _hasFlags objs' this ICM = true /\
    _hasFlags objs' this (bits AnimatedByTimeline) = false /\
    (forall p, _parent (objs this) = Some p ->
               _hasFlags objs' p (bits InvalidBounds) = true).
Proof.
  intros Hw.
  set (written := update objs this (fun o => with_matrix (f (_matrix o)) o)).
  assert (Hparents : forall r, _parent (written r) = _parent (objs r)).
  { intros r. unfold written, update. destruct (Nat.eqb r this); reflexivity. }
  assert (Hw' : ancestors_within written (Some this) (S fuel) = true)
    by (rewrite (ancestors_within_ext objs); assumption).
  destruct (invalidatePosition_effect fuel written this Hw')
    as (objs' & Hrun & Hfo & Hicm & Hanim & Hbounds).
  exists objs'. split; [exact Hrun |].
  split.
  { rewrite (flags_only_object _ _ this Hfo). unfold written.
    rewrite update_same. reflexivity. }
  split.
  { intros r Hne. rewrite (flags_only_object _ _ r Hfo). unfold written.
    rewrite update_other by exact Hne. reflexivity. }
  split.
  { intros r. rewrite (flags_only_object _ _ r Hfo). unfold written, update.
    destruct (Nat.eqb r this); reflexivity. }
  repeat split; try assumption.
  intros p Hp. apply Hbounds. rewrite Hparents. exact Hp.
Qed.

(** X13: [set x(value)] and [set y(value)] with a value whose twips
    differ from the stored coordinate return; afterwards the coordinate
    holds the twips and the rest of the matrix is as before, no other
    object's matrix and no cached concatenated matrix has changed, the
    object has [InvalidConcatenatedMatrix] and no [AnimatedByTimeline], and
    its parent has [InvalidBounds]. *)
Theorem set_x_y_moves fuel (objs : Store) this value :
  ancestors_within objs (Some this) (S fuel) = true ->
  (number_strict_eq (twips_of value) (tx (_matrix (objs this))) = false ->
   exists objs',
     set_x (S (S fuel)) objs this value = Some objs' /\
     _matrix (objs' this) = Matrix_with_tx (twips_of value) (_matrix (objs this)) /\
     (forall r, r <> this -> _matrix (objs' r) = _matrix (objs r)) /\
     (forall r, _concatenatedMatrix (objs' r) = _concatenatedMatrix (objs r)) /\
     _hasFlags objs' this ICM = true /\
     _hasFlags objs' this (bits AnimatedByTimeline) = false /\
     (forall p, _parent (objs this) = Some p ->
                _hasFlags objs' p (bits InvalidBounds) = true)) /\
  (number_strict_eq (twips_of value) (ty (_matrix (objs this))) = false ->
   exists objs',
     set_y (S (S fuel)) objs this value = Some objs' /\
     _matrix (objs' this) = Matrix_with_ty (twips_of value) (_matrix (objs this)) /\
     (forall r, r <> this -> _matrix (objs' r) = _matrix (objs r)) /\
     (forall r, _concatenatedMatrix (objs' r) = _concatenatedMatrix (objs r)) /\
     _hasFlags objs' this ICM = true /\
     _hasFlags objs' this (bits AnimatedByTimeline) = false /\
     (forall p, _parent (objs this) = Some p ->
                _hasFlags objs' p (bits InvalidBounds) = true)).
Proof.
  intros Hw. split; intros Hdiff.
  - unfold set_x. rewrite Hdiff.
    apply (moved_effect fuel objs this (Matrix_with_tx (twips_of value)) Hw).
  - unfold set_y. rewrite Hdiff.
    apply (moved_effect fuel objs this (Matrix_with_ty (twips_of value)) Hw).
Qed.

End SetterExtras.

Section MoreSetterExtras.

Context `{Geom : Geometry}.

(** X14: when [===] holds between the twips of [value] and themselves,
    [set x(value)] twice in a row leaves the store that one call leaves:
    the second call finds the coordinate in place and writes nothing.  The
    same holds for [set y]. *)
Theorem set_x_y_twice fuel (objs : Store) this value :
  ancestors_within objs (Some this) (S fuel) = true ->
  number_strict_eq (twips_of value) (twips_of value) = true ->
  (exists objs1,
     set_x (S (S fuel)) objs this value = Some objs1 /\
     set_x (S (S fuel)) objs1 this value = Some objs1) /\
  (exists objs1,
     set_y (S (S fuel)) objs this value = Some objs1 /\
     set_y (S (S fuel)) objs1 this value = Some objs1).
Proof.
  intros Hw Hrefl. split.
  - destruct (number_strict_eq (twips_of value) (tx (_matrix (objs this))))
      eqn:Hsame.
    + exists objs. unfold set_x. rewrite Hsame. auto.
    + destruct (moved_effect fuel objs this (Matrix_with_tx (twips_of value)) Hw)
        as (objs1 & Hrun & Hm & _).
      exists objs1. unfold set_x at 1. rewrite Hsame. split; [exact Hrun |].
      unfold set_x. rewrite Hm. cbn [tx Matrix_with_tx]. rewrite Hrefl.
      reflexivity.
  - destruct (number_strict_eq (twips_of value) (ty (_matrix (objs this))))
      eqn:Hsame.
    + exists objs. unfold set_y. rewrite Hsame. auto.
    + destruct (moved_effect fuel objs this (Matrix_with_ty (twips_of value)) Hw)
        as (objs1 & Hrun & Hm & _).
      exists objs1. unfold set_y at 1. rewrite Hsame. split; [exact Hrun |].
      unfold set_y. rewrite Hm. cbn [ty Matrix_with_ty]. rewrite Hrefl.
      reflexivity.
Qed.

(** X15: after [set visible(true)] the getter answers [true].  Whatever
    the value, the setter writes to the receiver's flag word only, and
    when it writes it also takes [AnimatedByTimeline] away. *)
Theorem set_visible_true_shows (objs : Store) this :
  get_visible (set_visible objs this true) this = true /\
  (forall value, flags_only objs (set_visible objs this value)) /\
  (forall value x, x <> this -> set_visible objs this value x = objs x) /\
  (forall value,
     set_visible objs this value = objs \/
     _hasFlags (set_visible objs this value) this (bits AnimatedByTimeline) = false).
Proof.
  split; [| split; [| split]].
  - unfold get_visible, set_visible.
    destruct (_hasFlags objs this (bits Visible)) eqn:Hvisible;
      cbn [Bool.eqb]; [exact Hvisible |].
    rewrite hasFlags_removeFlags_disjoint;
      [| apply (bits_is_mask Visible) | reflexivity].
    apply hasFlags_setFlags_same, (bits_is_mask Visible).
  - intros value. unfold set_visible.
    destruct (Bool.eqb value (_hasFlags objs this (bits Visible)));
      [apply flags_only_refl |].
    eapply flags_only_trans;
      [apply flags_only_setFlags | apply flags_only_removeFlags].
  - intros value x Hne. unfold set_visible.
    destruct (Bool.eqb value (_hasFlags objs this (bits Visible)));
      [reflexivity |].
    unfold _removeFlags, _setFlags. rewrite !update_other by exact Hne.
    reflexivity.
  - intros value. unfold set_visible.
    destruct (Bool.eqb value (_hasFlags objs this (bits Visible)));
      [left; reflexivity | right].
    unfold _hasFlags, _removeFlags. rewrite update_same.
    cbn [_flags with_flags]. apply flags_has_andnot_same.
    + apply (bits_is_mask AnimatedByTimeline).
    + discriminate.
Qed.

(** X16: [_setColorTransform(colorTransform)] returns; afterwards the
    receiver holds the new colour transform and has
    [InvalidConcatenatedColorTransform] and [InvalidPaint]; no other
    object's colour transform, no cached concatenated colour transform and
    no matrix has changed. *)
Theorem setColorTransform_invalidates fuel (objs : Store) this colorTransform :
  ancestors_within objs (Some this) (S fuel) = true ->
  exists objs',
    _setColorTransform (S (S fuel)) objs this colorTransform = Some objs' /\
    _colorTransform (objs' this) = colorTransform /\
    (forall r, r <> this -> _colorTransform (objs' r) = _colorTransform (objs r)) /\
    (forall r, _concatenatedColorTransform (objs' r) =
               _concatenatedColorTransform (objs r)) /\
    (forall r, _matrix (objs' r) = _matrix (objs r)) /\
    _hasFlags objs' this ICCT = true /\
    _hasFlags objs' this (bits InvalidPaint) = true.
Proof.
  intros Hw. unfold _setColorTransform.
  match goal with
  | |- context [_propagateFlags _ ?o this ICCT _] => set (written := o)
  end.
  assert (Hparents : forall r, _parent (written r) = _parent (objs r)).
  { intros r. unfold written, update. destruct (Nat.eqb r this); reflexivity. }
  assert (Hw1 : ancestors_within written (Some this) (S fuel) = true)
    by (rewrite (ancestors_within_ext objs); assumption).
  destruct (propagateFlags_returns fuel written this ICCT
              (Some Direction.Downward) Hw1) as [objs1 Hrun1].
  rewrite Hrun1.
  pose proof (propagateFlags_flags_only _ _ _ _ _ _ Hrun1) as Hfo1.
  assert (Hw2 : ancestors_within objs1 (Some this) (S fuel) = true)
    by (rewrite (ancestors_within_flags_only written); assumption).
  destruct (propagateFlags_returns fuel objs1 this (bits InvalidPaint)
              (Some Direction.Upward) Hw2) as [objs2 Hrun2].
  unfold _invalidatePaint. rewrite Hrun2.
  pose proof (propagateFlags_flags_only _ _ _ _ _ _ Hrun2) as Hfo2.
  pose proof (flags_only_trans _ _ _ Hfo1 Hfo2) as Hfo.
  exists objs2. split; [reflexivity |].
  split.
  { rewrite (flags_only_object _ _ this Hfo). unfold written.
    rewrite update_same. reflexivity. }
  split.
  { intros r Hne. rewrite (flags_only_object _ _ r Hfo). unfold written.
    rewrite update_other by exact Hne. reflexivity. }
  split.
  { intros r. rewrite (flags_only_object _ _ r Hfo). unfold written, update.
    destruct (Nat.eqb r this); reflexivity. }
  split.
  { intros r. rewrite (flags_only_object _ _ r Hfo). unfold written, update.
    destruct (Nat.eqb r this); reflexivity. }
  split.
  - eapply propagateFlags_mono;
      [apply (bits_is_mask InvalidConcatenatedColorTransform) | | exact Hrun2].
    eapply propagateFlags_receiver;
      [apply (bits_is_mask InvalidConcatenatedColorTransform) | exact Hrun1].
  - eapply propagateFlags_receiver;
      [apply (bits_is_mask InvalidPaint) | exact Hrun2].
Qed.

(** X10: the mask setter returns and keeps the mask links consistent,
    so that afterwards no two objects are masked by the same object. *)
Theorem set_mask_keeps_exclusivity fuel (objs : Store) this value :
  mask_links_consistent objs ->
  (forall r, ancestors_within objs (Some r) (S fuel) = true) ->
  exists objs',
    set_mask (S (S (S (S fuel)))) objs this value = Some objs' /\
    mask_links_consistent objs' /\
    forall a b m,
      _mask (objs' a) = Some m -> _mask (objs' b) = Some m -> a = b.
Proof.
  intros Hcons Hw.
  destruct (set_mask_returns fuel objs this value Hw) as [objs' Hrun].
  exists objs'. split; [exact Hrun |].
  pose proof (set_mask_keeps_links _ _ _ _ _ Hcons Hrun) as Hcons'.
  split; [exact Hcons' |].
  intros a b m Ha Hb. apply Hcons' in Ha. apply Hcons' in Hb. congruence.
Qed.

(** X11: with consistent mask links, [this.mask = m] for an [m] other
    than the receiver returns; afterwards the receiver is masked by [m]
    and [m] points back to it, every other object has the mask it had or
    none, and no other back-reference has changed. *)
Theorem set_mask_assigns fuel (objs : Store) this m :
  m <> this ->
  mask_links_consistent objs ->
  (forall r, ancestors_within objs (Some r) (S fuel) = true) ->
  exists objs',
    set_mask (S (S (S (S fuel)))) objs this (Some m) = Some objs' /\
    get_mask objs' this = Some m /\
    _maskedObject (objs' m) = Some this /\
    (forall r, r <> this ->
               _mask (objs' r) = _mask (objs r) \/ _mask (objs' r) = None) /\
    (forall r, r <> m -> _maskedObject (objs' r) = _maskedObject (objs r)).
Proof.
  intros Hne Hcons Hw.
  destruct (set_mask_returns fuel objs this (Some m) Hw) as [objs' Hrun].
  exists objs'. split; [exact Hrun |].
  pose proof (set_mask_fields _ _ _ _ _ Hrun) as F.
  assert (Hself : strict_eq (Some m) (Some this) = false)
    by (apply strict_eq_false; congruence).
  unfold get_mask.
  destruct (F this) as (Hthis & _ & _). destruct (F m) as (_ & Hm & _).
  rewrite Hthis, Hm. unfold mask_after, maskedObject_after.
  rewrite Hself, orb_false_r.
  destruct (strict_eq (_mask (objs this)) (Some m)) eqn:Hearly.
  - apply strict_eq_true in Hearly.
    split; [exact Hearly |]. split; [apply Hcons, Hearly |].
    split; intros r Hr.
    + left. destruct (F r) as (Hmask & _ & _). rewrite Hmask.
      unfold mask_after. rewrite Hself, orb_false_r.
      rewrite (proj2 (strict_eq_true _ _) Hearly). reflexivity.
    + destruct (F r) as (_ & Hback & _). rewrite Hback.
      unfold maskedObject_after. rewrite Hself, orb_false_r.
      rewrite (proj2 (strict_eq_true _ _) Hearly). reflexivity.
  - rewrite !Nat.eqb_refl. split; [reflexivity |]. split; [reflexivity |].
    split; intros r Hr.
    + destruct (F r) as (Hmask & _ & _). rewrite Hmask.
      unfold mask_after. rewrite Hself, orb_false_r, Hearly.
      destruct (Nat.eqb_spec r this); [contradiction |].
      destruct (strict_eq (_maskedObject (objs m)) (Some r)); auto.
    + destruct (F r) as (_ & Hback & _). rewrite Hback.
      unfold maskedObject_after. rewrite Hself, orb_false_r, Hearly.
      destruct (Nat.eqb_spec r m); [contradiction | reflexivity].
Qed.

(** X12: [this.mask = null] returns; afterwards the receiver has no
    mask, every other object has the mask it had, and no back-reference
    has been written. *)
Theorem set_mask_null_detaches fuel (objs : Store) this :
  (forall r, ancestors_within objs (Some r) (S fuel) = true) ->
  exists objs',
    set_mask (S (S (S (S fuel)))) objs this None = Some objs' /\
    get_mask objs' this = None /\
    (forall r, r <> this -> _mask (objs' r) = _mask (objs r)) /\
    (forall r, _maskedObject (objs' r) = _maskedObject (objs r)).
Proof.
  intros Hw.
  destruct (set_mask_returns fuel objs this None Hw) as [objs' Hrun].
  exists objs'. split; [exact Hrun |].
  pose proof (set_mask_fields _ _ _ _ _ Hrun) as F.
  unfold get_mask. split; [| split].
  - destruct (F this) as (Hmask & _ & _). rewrite Hmask.
    unfold mask_after. cbn [strict_eq]. rewrite orb_false_r, Nat.eqb_refl.
    destruct (_mask (objs this)) eqn:Hold; reflexivity.
  - intros r Hr. destruct (F r) as (Hmask & _ & _). rewrite Hmask.
    unfold mask_after.
    destruct (Nat.eqb_spec r this); [contradiction |].
    destruct (strict_eq (_mask (objs this)) None || strict_eq None (Some this));
      reflexivity.
  - intros r. destruct (F r) as (_ & Hback & _). rewrite Hback.
    unfold maskedObject_after.
    destruct (strict_eq (_mask (objs this)) None || strict_eq None (Some this));
      reflexivity.
Qed.

End MoreSetterExtras.

(** ** Further properties: the bounds *)

Section BoundsExtras.

Context `{Geom : Geometry}.

Lemma hasFlags_removeFlags_same (objs : Store) this f :
  is_mask f -> f <> 0 -> _hasFlags (_removeFlags objs this f) this f = false.
Proof.
  intros Hf Hnz. unfold _hasFlags, _removeFlags. rewrite update_same.
  cbn [_flags with_flags]. apply flags_has_andnot_same; assumption.
Qed.

(** X17: on an object that is not a container, with [InvalidBounds] set
    and a rectangle to write to, [_getContentBounds] returns the emptied
    rectangle united with the bounds of the object's own graphics, if it
    has any.  It clears the flag, writes to that one rectangle of that one
    object only, and a second read returns the same value and writes
    nothing. *)
Theorem getContentBounds_leaf_caches (objs : Store) this includeStrokes rectangle :
  instanceof_DisplayObjectContainer (class (objs this)) = false ->
  _hasFlags objs this (bits InvalidBounds) = true ->
  rectangle_of includeStrokes (objs this) = Some rectangle ->
  exists value objs',
    _getContentBounds objs this includeStrokes = (Normal (Some value), objs') /\
    value =
      match own_graphics (objs this) with
      | Some g =>
          Rectangle_unionWith (Rectangle_setEmpty rectangle)
            (Graphics_getContentBounds g includeStrokes)
      | None => Rectangle_setEmpty rectangle
      end /\
    _hasFlags objs' this (bits InvalidBounds) = false /\
    _getContentBounds objs' this includeStrokes = (Normal (Some value), objs') /\
    (forall x, x <> this -> objs' x = objs x) /\
    rectangle_of (negb includeStrokes) (objs' this) =
      rectangle_of (negb includeStrokes) (objs this).
Proof.
  intros Hclass Hflag Hrect.
  assert (Hgone : forall o : Store,
            _hasFlags (_removeFlags o this (bits InvalidBounds)) this
              (bits InvalidBounds) = false).
  { intros o. apply hasFlags_removeFlags_same;
      [apply (bits_is_mask InvalidBounds) | discriminate]. }
  unfold _getContentBounds at 1. rewrite Hflag, Hrect.
  set (emptied := update objs this
                    (with_rectangle includeStrokes (Rectangle_setEmpty rectangle))).
  assert (Hclass1 : class (emptied this) = class (objs this))
    by (unfold emptied; rewrite update_same; apply class_with_rectangle).
  assert (Hgraphics1 : _graphics (emptied this) = _graphics (objs this))
    by (unfold emptied; rewrite update_same; destruct includeStrokes; reflexivity).
  assert (Hrect1 : rectangle_of includeStrokes (emptied this) =
                   Some (Rectangle_setEmpty rectangle))
    by (unfold emptied; rewrite update_same; apply rectangle_of_with_rectangle).
  assert (Hother1 : rectangle_of (negb includeStrokes) (emptied this) =
                    rectangle_of (negb includeStrokes) (objs this))
    by (unfold emptied; rewrite update_same; destruct includeStrokes; reflexivity).
  assert (Hframe1 : forall x, x <> this -> emptied x = objs x)
    by (intros x Hx; apply update_other, Hx).
  fold (own_graphics (emptied this)).
  assert (Hown : own_graphics (emptied this) = own_graphics (objs this))
    by (unfold own_graphics; rewrite Hclass1, Hgraphics1; reflexivity).
  rewrite Hown.
  destruct (own_graphics (objs this)) as [g |].
  - set (united := update emptied this _).
    assert (Hu : united this =
                 with_rectangle includeStrokes
                   (Rectangle_unionWith (Rectangle_setEmpty rectangle)
                      (Graphics_getContentBounds g includeStrokes))
                   (emptied this)).
    { unfold united. rewrite update_same, Hrect1. reflexivity. }
    assert (Hclass2 : class (united this) = class (objs this))
      by (rewrite Hu, class_with_rectangle; exact Hclass1).
    rewrite Hclass2, Hclass. cbv iota.
    set (objs' := _removeFlags united this (bits InvalidBounds)).
    assert (Hvalue : rectangle_of includeStrokes (objs' this) =
                     Some (Rectangle_unionWith (Rectangle_setEmpty rectangle)
                             (Graphics_getContentBounds g includeStrokes))).
    { unfold objs', _removeFlags. rewrite update_same, Hu.
      destruct includeStrokes; reflexivity. }
    rewrite Hvalue. do 2 eexists. split; [reflexivity |].
    split; [reflexivity |]. split; [apply Hgone |].
    split.
    { assert (Hclear : _hasFlags objs' this (bits InvalidBounds) = false)
        by apply Hgone.
      unfold _getContentBounds. rewrite Hclear, Hvalue. reflexivity. }
    split.
    { intros x Hx. unfold objs', _removeFlags, united.
      rewrite !update_other by exact Hx. apply Hframe1, Hx. }
    unfold objs', _removeFlags. rewrite update_same, Hu.
    rewrite <- Hother1. destruct includeStrokes; reflexivity.
  - rewrite Hclass1, Hclass. cbv iota.
    set (objs' := _removeFlags emptied this (bits InvalidBounds)).
    assert (Hvalue : rectangle_of includeStrokes (objs' this) =
                     Some (Rectangle_setEmpty rectangle)).
    { unfold objs', _removeFlags. rewrite update_same.
      rewrite <- Hrect1. destruct includeStrokes; reflexivity. }
    rewrite Hvalue. do 2 eexists. split; [reflexivity |].
    split; [reflexivity |]. split; [apply Hgone |].
    split.
    { assert (Hclear : _hasFlags objs' this (bits InvalidBounds) = false)
        by apply Hgone.
      unfold _getContentBounds. rewrite Hclear, Hvalue. reflexivity. }
    split.
    { intros x Hx. unfold objs', _removeFlags.
      rewrite update_other by exact Hx. apply Hframe1, Hx. }
    unfold objs', _removeFlags. rewrite update_same.
    rewrite <- Hother1. destruct includeStrokes; reflexivity.
Qed.

(** X18: when the target is [null] or the receiver itself, or when the
    content bounds are empty, [_getTransformedBounds] returns the content
    bounds as they are: it reads no concatenated matrix, writes nothing
    beyond what the read of the content bounds wrote, and does not convert
    to pixels even when asked to. *)
Theorem getTransformedBounds_without_transform fuel (w : World) this target
  includeStroke toPixels bounds objs' :
  _getContentBounds (objects w) this includeStroke = (Normal (Some bounds), objs') ->
  target = None \/ target = Some this \/ Rectangle_isEmpty bounds = true ->
  _getTransformedBounds fuel w this target includeStroke toPixels =
  Some (Normal bounds, mkWorld objs' (_path w)).
Proof.
  intros Hread Hcase. unfold _getTransformedBounds. rewrite Hread.
  destruct target as [t |]; [| reflexivity].
  destruct Hcase as [Hnone | [Hself | Hempty]].
  - discriminate.
  - rewrite (proj2 (strict_eq_true _ _) Hself). reflexivity.
  - rewrite Hempty, orb_true_r. reflexivity.
Qed.

End BoundsExtras.

(** ** The general theorems at concrete scenes *)


(** C5 on [A] with [InvalidPaint] in both directions. *)
Lemma propagateFlags_twice_witness :
  is_mask (bits InvalidPaint) /\
  ancestors_within Scene.tree (Some Scene.A) 2 = true /\
  exists objs1,
    _propagateFlags 3 Scene.tree Scene.A (bits InvalidPaint) (Some 3) = Some objs1 /\
    _hasFlags objs1 Scene.A (bits InvalidPaint) = true /\
    _propagateFlags 3 objs1 Scene.A (bits InvalidPaint) (Some 3) = Some objs1.
Proof.
  assert (Hmask : is_mask (bits InvalidPaint)) by (unfold is_mask; simpl; lia).
  split; [exact Hmask |]. split; [reflexivity |].
  apply (propagateFlags_twice 1 Scene.tree Scene.A (bits InvalidPaint) (Some 3));
    [exact Hmask | reflexivity].
Defined.

(** C6, amended, on a mask [M] that is in use: it masks [X] before the
    two assignments. *)
Lemma set_mask_exclusive_witness :
  Scene.T1 <> Scene.T2 /\ Scene.M <> Scene.T1 /\ Scene.M <> Scene.T2 /\
  _mask (Scene.in_use Scene.X) = Some Scene.M /\
  masks_only_second 4 Scene.in_use Scene.M Scene.T1 Scene.T2.
Proof.
  assert (H12 : Scene.T1 <> Scene.T2) by discriminate.
  assert (Hm1 : Scene.M <> Scene.T1) by discriminate.
  assert (Hm2 : Scene.M <> Scene.T2) by discriminate.
  repeat split; try assumption.
  apply (set_mask_exclusive 1 4 Scene.in_use Scene.M Scene.T1 Scene.T2);
    try assumption.
  - intros r m. unfold Scene.in_use, update.
    destruct r as [| [| [| [| r]]]]; simpl; intros Hmask; inversion Hmask;
      reflexivity.
  - intros r. destruct r as [| [| [| [| r]]]]; reflexivity.
  - simpl. lia.
Defined.

(** C9: asking [A], which is visible, to be invisible. *)
Lemma set_visible_keeps_Visible_witness :
  _hasFlags Scene.shown Scene.A (bits Visible) = true /\
  _hasFlags (set_visible Scene.shown Scene.A false) Scene.A (bits Visible) = true.
Proof.
  split; [reflexivity |].
  apply (set_visible_keeps_Visible Scene.shown Scene.A false Scene.A).
  reflexivity.
Defined.

(** C10: [A.x = 10] and [A.y = 10] on an [A] that is at (200, 200) twips
    and animated by the timeline. *)
Lemma set_x_y_same_value_witness :
  number_strict_eq (twips_of 10) (tx (_matrix (Scene.diagonal Scene.A))) = true /\
  number_strict_eq (twips_of 10) (ty (_matrix (Scene.diagonal Scene.A))) = true /\
  _hasFlags Scene.diagonal Scene.A (bits AnimatedByTimeline) = true /\
  set_x 5 Scene.diagonal Scene.A 10 = Some Scene.diagonal /\
  set_y 5 Scene.diagonal Scene.A 10 = Some Scene.diagonal.
Proof.
  destruct (set_x_y_same_value 5 Scene.diagonal Scene.A 10) as [Hx Hy].
  split; [reflexivity |]. split; [reflexivity |]. split; [reflexivity |].
  split; [apply Hx | apply Hy]; reflexivity.
Defined.

(** ** The further properties at concrete scenes *)

(** X1 with [InvalidPaint] on [A]. *)
Lemma toggleFlags_roundtrip_witness :
  _hasFlags (_toggleFlags Scene.tree Scene.A (bits InvalidPaint) true) Scene.A
    (bits InvalidPaint) = true /\
  _hasAnyFlags (_toggleFlags Scene.shown Scene.A (bits Visible) false) Scene.A
    (bits Visible) = false.
Proof.
  assert (Hpaint : is_mask (bits InvalidPaint)) by (unfold is_mask; simpl; lia).
  assert (Hvisible : is_mask (bits Visible)) by (unfold is_mask; simpl; lia).
  destruct (toggleFlags_roundtrip Scene.tree Scene.A (bits InvalidPaint) Hpaint)
    as (Hon & _).
  destruct (toggleFlags_roundtrip Scene.shown Scene.A (bits Visible) Hvisible)
    as (_ & Hoff & _).
  split; assumption.
Defined.

(** X2: removing [AnimatedByTimeline] from the visible [A] leaves it
    visible. *)
Lemma flags_are_independent_witness :
  _hasFlags (_removeFlags Scene.shown Scene.A (bits AnimatedByTimeline)) Scene.A
    (bits Visible) = _hasFlags Scene.shown Scene.A (bits Visible).
Proof.
  assert (Hvisible : is_mask (bits Visible)) by (unfold is_mask; simpl; lia).
  destruct (flags_are_independent Scene.shown Scene.A (bits AnimatedByTimeline)
              Scene.A (bits Visible) Hvisible eq_refl) as (_ & Hremove).
  exact Hremove.
Defined.

(** X3: [B._invalidateBounds()] in the tree [R] > [A] > [B]. *)
Lemma propagateFlags_upward_marks_ancestors_witness :
  exists objs',
    _propagateFlags 4 Scene.tree Scene.B (bits InvalidBounds)
      (Some Direction.Upward) = Some objs' /\
    _hasFlags objs' Scene.B (bits InvalidBounds) = true /\
    forall a, ancestor Scene.tree Scene.B a ->
              _hasFlags objs' a (bits InvalidBounds) = true.
Proof.
  apply (propagateFlags_upward_marks_ancestors 2 Scene.tree Scene.B
           (bits InvalidBounds) (Some Direction.Upward)).
  - unfold is_mask. simpl. lia.
  - reflexivity.
  - reflexivity.
  - reflexivity.
Defined.

(** X4 on [A] with [InvalidPaint] in both directions. *)
Lemma propagateFlags_only_adds_flags_witness :
  exists objs',
    _propagateFlags 3 Scene.shown Scene.A (bits InvalidPaint) (Some 3) = Some objs' /\
    flags_only Scene.shown objs' /\
    (forall x g, is_mask g -> _hasFlags Scene.shown x g = true ->
                 _hasFlags objs' x g = true) /\
    (forall x g, is_mask g -> Z.land g (bits InvalidPaint) = 0 ->
                 _hasFlags objs' x g = _hasFlags Scene.shown x g).
Proof.
  apply (propagateFlags_only_adds_flags 1 Scene.shown Scene.A
           (bits InvalidPaint) (Some 3)).
  reflexivity.
Defined.

(** X5: [A._invalidatePaint()] leaves [B] alone. *)
Lemma propagateFlags_upward_frame_witness :
  exists objs',
    _propagateFlags 3 Scene.tree Scene.A (bits InvalidPaint)
      (Some Direction.Upward) = Some objs' /\
    forall x, x <> Scene.A -> ~ ancestor Scene.tree Scene.A x ->
              objs' x = Scene.tree x.
Proof.
  apply (propagateFlags_upward_frame 1 Scene.tree Scene.A (bits InvalidPaint)
           (Some Direction.Upward)); reflexivity.
Defined.

(** X6 on the root [R]. *)
Lemma propagateFlags_downward_marks_children_witness :
  exists objs',
    _propagateFlags 2 Scene.tree Scene.R ICM (Some Direction.Downward) = Some objs' /\
    _hasFlags objs' Scene.R ICM = true /\
    forall child, In child (_children (Scene.tree Scene.R)) ->
      _hasFlags objs' child ICM = true.
Proof.
  apply (propagateFlags_downward_marks_children 0 Scene.tree Scene.R ICM).
  - unfold is_mask, ICM. simpl. lia.
  - reflexivity.
  - reflexivity.
  - reflexivity.
Defined.

(** X7: after the two moves, the closest and the furthest object above [B]
    with a valid concatenated matrix are both [R]. *)
Lemma ancestor_searches_first_and_last_witness :
  _findClosestAncestor 3 Scene.moved_store Scene.B ICM false = Some (Some Scene.R) /\
  _findFurthestAncestor 3 Scene.moved_store Scene.B ICM false = Some (Some Scene.R).
Proof.
  apply (ancestor_searches_first_and_last 3 Scene.moved_store Scene.B ICM false
           [Scene.B; Scene.A; Scene.R]).
  reflexivity.
Defined.

(** X8 on the same scene. *)
Lemma ancestor_searches_agree_witness :
  (_findClosestAncestor 3 Scene.moved_store Scene.B ICM false = Some None <->
   _findFurthestAncestor 3 Scene.moved_store Scene.B ICM false = Some None) /\
  (forall found,
     _findClosestAncestor 3 Scene.moved_store Scene.B ICM false = Some (Some found) \/
     _findFurthestAncestor 3 Scene.moved_store Scene.B ICM false = Some (Some found) ->
     (found = Scene.B \/ ancestor Scene.moved_store Scene.B found) /\
     _hasFlags Scene.moved_store found ICM = false) /\
  (_hasFlags Scene.moved_store Scene.B ICM = false ->
   _findClosestAncestor 3 Scene.moved_store Scene.B ICM false = Some (Some Scene.B)).
Proof.
  apply (ancestor_searches_agree 3 Scene.moved_store Scene.B ICM false
           [Scene.B; Scene.A; Scene.R]).
  reflexivity.
Defined.

(** X9: is [R] an ancestor of [B]? *)
Lemma isAncestor_decides_ancestry_witness :
  (exists answer,
     _isAncestor 3 Scene.tree Scene.B (Some Scene.R) = Some answer /\
     (answer = true <-> Scene.R = Scene.B \/ ancestor Scene.tree Scene.B Scene.R)) /\
  _isAncestor 3 Scene.tree Scene.B None = Some false.
Proof.
  apply (isAncestor_decides_ancestry 3 Scene.tree Scene.B Scene.R).
  reflexivity.
Defined.

(** X10: [T1.mask = M] while [M] masks [X]. *)
Lemma set_mask_keeps_exclusivity_witness :
  exists objs',
    set_mask 4 Scene.in_use Scene.T1 (Some Scene.M) = Some objs' /\
    mask_links_consistent objs' /\
    forall a b m,
      _mask (objs' a) = Some m -> _mask (objs' b) = Some m -> a = b.
Proof.
  apply (set_mask_keeps_exclusivity 0 Scene.in_use Scene.T1 (Some Scene.M)).
  - intros r m. unfold Scene.in_use, update.
    destruct r as [| [| [| [| r]]]]; simpl; intros Hmask; inversion Hmask;
      reflexivity.
  - intros r. destruct r as [| [| [| [| r]]]]; reflexivity.
Defined.

(** X11 on the same scene. *)
Lemma set_mask_assigns_witness :
  exists objs',
    set_mask 4 Scene.in_use Scene.T1 (Some Scene.M) = Some objs' /\
    get_mask objs' Scene.T1 = Some Scene.M /\
    _maskedObject (objs' Scene.M) = Some Scene.T1 /\
    (forall r, r <> Scene.T1 ->
               _mask (objs' r) = _mask (Scene.in_use r) \/ _mask (objs' r) = None) /\
    (forall r, r <> Scene.M ->
               _maskedObject (objs' r) = _maskedObject (Scene.in_use r)).
Proof.
  apply (set_mask_assigns 0 Scene.in_use Scene.T1 Scene.M).
  - discriminate.
  - intros r m. unfold Scene.in_use, update.
    destruct r as [| [| [| [| r]]]]; simpl; intros Hmask; inversion Hmask;
      reflexivity.
  - intros r. destruct r as [| [| [| [| r]]]]; reflexivity.
Defined.

(** X12: [X.mask = null] while [X] is masked by [M]. *)
Lemma set_mask_null_detaches_witness :
  exists objs',
    set_mask 4 Scene.in_use Scene.X None = Some objs' /\
    get_mask objs' Scene.X = None /\
    (forall r, r <> Scene.X -> _mask (objs' r) = _mask (Scene.in_use r)) /\
    (forall r, _maskedObject (objs' r) = _maskedObject (Scene.in_use r)).
Proof.
  apply (set_mask_null_detaches 0 Scene.in_use Scene.X).
  intros r. destruct r as [| [| [| [| r]]]]; reflexivity.
Defined.

(** X13: [A.x = 10] and [A.y = 10] in the tree [R] > [A] > [B]. *)
Lemma set_x_y_moves_witness :
  (exists objs',
     set_x 3 Scene.tree Scene.A 10 = Some objs' /\
     _matrix (objs' Scene.A) = translation 200 0 /\
     (forall r, r <> Scene.A -> _matrix (objs' r) = _matrix (Scene.tree r)) /\
     (forall r, _concatenatedMatrix (objs' r) = _concatenatedMatrix (Scene.tree r)) /\
     _hasFlags objs' Scene.A ICM = true /\
     _hasFlags objs' Scene.A (bits AnimatedByTimeline) = false /\
     (forall p, _parent (Scene.tree Scene.A) = Some p ->
                _hasFlags objs' p (bits InvalidBounds) = true)) /\
  (exists objs',
     set_y 3 Scene.tree Scene.A 10 = Some objs' /\
     _matrix (objs' Scene.A) = translation 0 200 /\
     (forall r, r <> Scene.A -> _matrix (objs' r) = _matrix (Scene.tree r)) /\
     (forall r, _concatenatedMatrix (objs' r) = _concatenatedMatrix (Scene.tree r)) /\
     _hasFlags objs' Scene.A ICM = true /\
     _hasFlags objs' Scene.A (bits AnimatedByTimeline) = false /\
     (forall p, _parent (Scene.tree Scene.A) = Some p ->
                _hasFlags objs' p (bits InvalidBounds) = true)).
Proof.
  destruct (set_x_y_moves 1 Scene.tree Scene.A 10 eq_refl) as [Hx Hy].
  split; [apply Hx | apply Hy]; reflexivity.
Defined.

(** X14: [A.x = 10] twice. *)
Lemma set_x_y_twice_witness :
  (exists objs1,
     set_x 3 Scene.tree Scene.A 10 = Some objs1 /\
     set_x 3 objs1 Scene.A 10 = Some objs1) /\
  (exists objs1,
     set_y 3 Scene.tree Scene.A 10 = Some objs1 /\
     set_y 3 objs1 Scene.A 10 = Some objs1).
Proof.
  apply (set_x_y_twice 1 Scene.tree Scene.A 10); reflexivity.
Defined.

(** X16: a new colour transform for [A]. *)
Lemma setColorTransform_invalidates_witness :
  exists objs',
    _setColorTransform 3 Scene.tree Scene.A (2, 3) = Some objs' /\
    _colorTransform (objs' Scene.A) = (2, 3) /\
    (forall r, r <> Scene.A ->
               _colorTransform (objs' r) = _colorTransform (Scene.tree r)) /\
    (forall r, _concatenatedColorTransform (objs' r) =
               _concatenatedColorTransform (Scene.tree r)) /\
    (forall r, _matrix (objs' r) = _matrix (Scene.tree r)) /\
    _hasFlags objs' Scene.A ICCT = true /\
    _hasFlags objs' Scene.A (bits InvalidPaint) = true.
Proof.
  apply (setColorTransform_invalidates 1 Scene.tree Scene.A (2, 3)).
  reflexivity.
Defined.

(** X17: the bounds of the shape [B] with its graphics. *)
Lemma getContentBounds_leaf_caches_witness :
  exists value objs',
    _getContentBounds Samples.drawn Scene.B true = (Normal (Some value), objs') /\
    value = rectangle 0 0 10 10 /\
    _hasFlags objs' Scene.B (bits InvalidBounds) = false /\
    _getContentBounds objs' Scene.B true = (Normal (Some value), objs') /\
    (forall x, x <> Scene.B -> objs' x = Samples.drawn x) /\
    rectangle_of false (objs' Scene.B) = Some (rectangle 5 5 5 5).
Proof.
  apply (getContentBounds_leaf_caches Samples.drawn Scene.B true (rectangle 5 5 5 5));
    reflexivity.
Defined.

(** X18: the bounds of [B] in its own coordinate space, pixels asked for. *)
Lemma getTransformedBounds_without_transform_witness :
  _getTransformedBounds 3 (Scene.world Scene.tree) Scene.B (Some Scene.B) true true =
  Some (Normal (rectangle 0 0 10 10), Scene.world Scene.tree).
Proof.
  apply (getTransformedBounds_without_transform 3 (Scene.world Scene.tree)
           Scene.B (Some Scene.B) true true (rectangle 0 0 10 10) Scene.tree).
  - reflexivity.
  - right. left. reflexivity.
Defined.

(** X19: the bounds of [B] in the coordinate space of [R], all caches
    valid. *)
Lemma getTransformedBounds_valid_witness :
  exists w',
    _getTransformedBounds 3 (Scene.world Scene.tree) Scene.B (Some Scene.R) true false =
    Some (Normal (rectangle 0 0 10 10), w') /\
    _concatenatedMatrix (objects w' Scene.R) = translation 0 0.
Proof.
  apply (getTransformedBounds_valid 3 (Scene.world Scene.tree) Scene.B Scene.R
           true (rectangle 0 0 10 10)).
  - discriminate.
  - reflexivity.
  - reflexivity.
  - reflexivity.
  - reflexivity.
  - reflexivity.
Defined.
